(** * go-proto-reflect-validators: the validation engine of [valid.go]

    A shallow embedding of the reflective protobuf validator
    ([ValidMsg] and the functions under it) and the properties of its
    traversal, its typed checkers and its regexp cache. *)

From Stdlib Require Import ZArith Floats Permutation.
From stdpp Require Import base option list gmap strings.

Local Open Scope string_scope.
Local Open Scope list_scope.
Local Open Scope Z_scope.
Set Warnings "-register-all,-inexact-float".

(** ** Data model *)

(** [descriptorpb.FieldDescriptorProto_Type]: the eighteen declared kinds. *)
Inductive FieldType :=
| TYPE_DOUBLE | TYPE_FLOAT | TYPE_INT64 | TYPE_UINT64 | TYPE_INT32
| TYPE_FIXED64 | TYPE_FIXED32 | TYPE_BOOL | TYPE_STRING | TYPE_GROUP
| TYPE_MESSAGE | TYPE_BYTES | TYPE_UINT32 | TYPE_ENUM | TYPE_SFIXED32
| TYPE_SFIXED64 | TYPE_SINT32 | TYPE_SINT64.

(** [FieldValidator] of validator.pb.go: every constraint is a pointer,
    [None] is the nil pointer (constraint unset). *)
Record FieldValidator := {
  Regex : option string;
  IntGt : option Z;
  IntLt : option Z;
  FloatGt : option float;
  FloatLt : option float;
  FloatEpsilon : option float;
  FloatGte : option float;
  FloatLte : option float;
  StringNotEmpty : option bool;
  RepeatedCountMin : option Z;
  RepeatedCountMax : option Z;
  LengthGt : option Z;
  LengthLt : option Z;
  LengthEq : option Z;
  IsInEnum : option bool
}.

(** What [proto.GetExtension(opt, E_Field)] can give back: an error, a
    payload of another Go type, or a [*FieldValidator]. *)
Inductive Extension :=
| ExtError
| ExtForeign
| ExtFieldValidator (rule : FieldValidator).

Record FieldOptions := { E_Field : Extension }.

(** [*desc.FieldDescriptor], with the accessors the engine calls.
    [GetEnumValues] lists [item.GetNumber()] over
    [field.GetEnumType().GetValues()]; the two map accessors are nil
    ([None]) on a field that is not a map. *)
Inductive FieldDescriptor := MkField {
  GetName : string;
  GetType : FieldType;
  IsExtension : bool;
  IsMap : bool;
  IsRepeated : bool;
  GetFieldOptions : option FieldOptions;
  GetEnumValues : list Z;
  GetMapKeyType : option FieldDescriptor;
  GetMapValueType : option FieldDescriptor
}.

(** A Go [interface{}] as the engine meets it. The integer constructors
    carry the mathematical value of the Go integer; [VFloat32] carries a
    float32 through its (exact) binary64 image. [VMap] lists the entries
    of a [map[interface{}]interface{}] in the order in which [range]
    hands them out in the run at hand: Go leaves that order unspecified,
    so two runs over one map may see two permutations of the entries.
    [DynMessage] lists [GetKnownFields()] in order, each with the result
    of [TryGetField] ([None]: it returned an error). *)
Inductive Value :=
| VNil
| VBool (b : bool)
| VInt32 (n : Z)
| VInt64 (n : Z)
| VUint32 (n : Z)
| VUint64 (n : Z)
| VFloat32 (x : float)
| VFloat64 (x : float)
| VString (s : string)
| VBytes (b : list Byte.byte)
| VMessage (m : Message)
| VList (l : list Value)
| VMap (l : list (Value * Value))
with Message :=
| NilMessage
| DynMessage (known : list (FieldDescriptor * option Value)).

(** [ValidError] *)
Record ValidError := {
  field : FieldDescriptor;
  validKey : string;
  validValue : Value;
  fieldValue : Value
}.

(** [ValidFail] *)
Definition ValidFail (field : FieldDescriptor) (validKey : string)
    (validValue fieldValue : Value) : ValidError :=
  {| field := field; validKey := validKey;
     validValue := validValue; fieldValue := fieldValue |}.

(** The outcome of a call that returns [error]: it returns ([None] is
    the nil error) or it panics. *)
Inductive Res :=
| Return (err : option ValidError)
| Panic.

(** Range of the Go integer types and the conversion [int64(x)], which
    keeps the low 64 bits in two's complement. *)
Definition in_int32 (n : Z) : Prop := - 2 ^ 31 <= n < 2 ^ 31.
Definition in_int64 (n : Z) : Prop := - 2 ^ 63 <= n < 2 ^ 63.
Definition in_uint32 (n : Z) : Prop := 0 <= n < 2 ^ 32.
Definition in_uint64 (n : Z) : Prop := 0 <= n < 2 ^ 64.

Definition int64 (n : Z) : Z := (n + 2 ^ 63) mod 2 ^ 64 - 2 ^ 63.

(** [if o != nil && viol( *o ) { return fail( *o ) }; k] *)
Definition check {A R : Type} (o : option A) (viol : A -> bool)
    (fail : A -> R) (k : R) : R :=
  match o with
  | Some a => if viol a then fail a else k
  | None => k
  end.

(** ** Typed checkers without state *)

(** [checkRepeated] *)
Definition checkRepeated (field : FieldDescriptor) (values : list Value)
    (rule : option FieldValidator) : option ValidError :=
  match rule with
  | None => None
  | Some rule =>
    let _len := Z.of_nat (length values) in
    check (RepeatedCountMin rule) (fun min => negb (_len >=? min))
      (fun min => Some (ValidFail field "RepeatedCountMin" (VInt64 min) (VInt64 _len)))
    (check (RepeatedCountMax rule) (fun max => negb (_len <=? max))
      (fun max => Some (ValidFail field "RepeatedCountMax" (VInt64 max) (VInt64 _len)))
    None)
  end.

(** [checkInt] *)
Definition checkInt (field : FieldDescriptor) (value : Z)
    (rule : option FieldValidator) : option ValidError :=
  match rule with
  | None => None
  | Some rule =>
    check (IntGt rule) (fun gt => negb (value >? gt))
      (fun gt => Some (ValidFail field "IntGt" (VInt64 gt) (VInt64 value)))
    (check (IntLt rule) (fun lt => negb (value <? lt))
      (fun lt => Some (ValidFail field "IntLt" (VInt64 lt) (VInt64 value)))
    None)
  end.

(** [valueMax] and [valueMin] of [checkFloat] *)
Definition valueMax (value : float) (rule : FieldValidator) : float :=
  match FloatEpsilon rule with
  | Some eps => (value + eps)%float
  | None => value
  end.

Definition valueMin (value : float) (rule : FieldValidator) : float :=
  match FloatEpsilon rule with
  | Some eps => (value - eps)%float
  | None => value
  end.

(** [checkFloat]; [a > b] on float64 is [b <? a]. *)
Definition checkFloat (field : FieldDescriptor) (value : float)
    (rule : option FieldValidator) : option ValidError :=
  match rule with
  | None => None
  | Some rule =>
    let valueMax := valueMax value rule in
    let valueMin := valueMin value rule in
    check (FloatGt rule) (fun gt => negb (gt <? valueMax)%float)
      (fun gt => Some (ValidFail field "FloatGt" (VFloat64 gt) (VFloat64 value)))
    (check (FloatLt rule) (fun lt => negb (valueMin <? lt)%float)
      (fun lt => Some (ValidFail field "FloatLt" (VFloat64 lt) (VFloat64 value)))
    (check (FloatGte rule) (fun gte => negb (gte <=? valueMax)%float)
      (fun gte => Some (ValidFail field "FloatGte" (VFloat64 gte) (VFloat64 value)))
    (check (FloatLte rule) (fun lte => negb (valueMin <=? lte)%float)
      (fun lte => Some (ValidFail field "FloatLte" (VFloat64 lte) (VFloat64 value)))
    None)))
  end.

(** [checkBytes] *)
Definition checkBytes (field : FieldDescriptor) (value : list Byte.byte)
    (rule : option FieldValidator) : option ValidError :=
  match rule with
  | None => None
  | Some rule =>
    let _len := Z.of_nat (length value) in
    check (LengthGt rule) (fun gt => negb (_len >? gt))
      (fun gt => Some (ValidFail field "LengthGt" (VInt64 gt) (VInt64 _len)))
    (check (LengthLt rule) (fun lt => negb (_len <? lt))
      (fun lt => Some (ValidFail field "LengthLt" (VInt64 lt) (VInt64 _len)))
    (check (LengthEq rule) (fun eq => negb (_len =? eq))
      (fun eq => Some (ValidFail field "LengthEq" (VInt64 eq) (VInt64 _len)))
    None))
  end.

(** [checkEnum]: the loop returns nil at the first declared number equal
    to the value. *)
Definition checkEnum (field : FieldDescriptor) (value : Z)
    (rule : option FieldValidator) : option ValidError :=
  match rule with
  | None => None
  | Some rule =>
    match IsInEnum rule with
    | None | Some false => None
    | Some true =>
      if existsb (fun number => value =? number) (GetEnumValues field)
      then None
      else Some (ValidFail field "IsInEnum" (VBool true) (VBool false))
    end
  end.

(** [getRule] *)
Definition getRule (field : FieldDescriptor) : option FieldValidator :=
  match GetFieldOptions field with
  | None => None
  | Some opt =>
    match E_Field opt with
    | ExtFieldValidator rule => Some rule
    | ExtError | ExtForeign => None
    end
  end.

(** ** The conditions of the specification, in its words *)

(** An integer field fails iff int-gt is set and value <= int-gt, or
    int-lt is set and value >= int-lt. *)
Definition int_fails (value : Z) (rule : FieldValidator) : Prop :=
  (exists gt, IntGt rule = Some gt /\ value <= gt) \/
  (exists lt, IntLt rule = Some lt /\ value >= lt).

(** The epsilon of a rule, 0 if float-epsilon is unset. *)
Definition epsilon (rule : FieldValidator) : float :=
  match FloatEpsilon rule with
  | Some eps => eps
  | None => 0%float
  end.

(** A floating-point field fails iff float-gt is set and
    value+e <= float-gt, or float-lt is set and value-e >= float-lt, or
    float-gte is set and value+e < float-gte, or float-lte is set and
    value-e > float-lte; the comparisons are those of binary64. *)
Definition float_fails (value : float) (rule : FieldValidator) : Prop :=
  let e := epsilon rule in
  (exists gt, FloatGt rule = Some gt /\ (value + e <=? gt)%float = true) \/
  (exists lt, FloatLt rule = Some lt /\ (lt <=? value - e)%float = true) \/
  (exists gte, FloatGte rule = Some gte /\ (value + e <? gte)%float = true) \/
  (exists lte, FloatLte rule = Some lte /\ (lte <? value - e)%float = true).

(** The same four bounds as [checkFloat] tests them: each set bound
    must hold of the widened value, and fails when it does not. *)
Definition float_bound_broken (value : float) (rule : FieldValidator) : Prop :=
  let e := epsilon rule in
  (exists gt, FloatGt rule = Some gt /\ (gt <? value + e)%float = false) \/
  (exists lt, FloatLt rule = Some lt /\ (value - e <? lt)%float = false) \/
  (exists gte, FloatGte rule = Some gte /\ (gte <=? value + e)%float = false) \/
  (exists lte, FloatLte rule = Some lte /\ (value - e <=? lte)%float = false).

(** No operand of a comparison of [checkFloat] is a NaN. *)
Definition float_ordered (value : float) (rule : FieldValidator) : Prop :=
  is_nan (value + epsilon rule)%float = false /\
  is_nan (value - epsilon rule)%float = false /\
  (forall gt, FloatGt rule = Some gt -> is_nan gt = false) /\
  (forall lt, FloatLt rule = Some lt -> is_nan lt = false) /\
  (forall gte, FloatGte rule = Some gte -> is_nan gte = false) /\
  (forall lte, FloatLte rule = Some lte -> is_nan lte = false).

(** ** Schemas and messages of the examples *)

Definition no_rule : FieldValidator :=
  {| Regex := None; IntGt := None; IntLt := None;
     FloatGt := None; FloatLt := None; FloatEpsilon := None;
     FloatGte := None; FloatLte := None; StringNotEmpty := None;
     RepeatedCountMin := None; RepeatedCountMax := None;
     LengthGt := None; LengthLt := None; LengthEq := None;
     IsInEnum := None |}.

Definition rule_int (gt lt : option Z) : FieldValidator :=
  {| Regex := None; IntGt := gt; IntLt := lt;
     FloatGt := None; FloatLt := None; FloatEpsilon := None;
     FloatGte := None; FloatLte := None; StringNotEmpty := None;
     RepeatedCountMin := None; RepeatedCountMax := None;
     LengthGt := None; LengthLt := None; LengthEq := None;
     IsInEnum := None |}.

Definition rule_float (gt lt eps gte lte : option float) : FieldValidator :=
  {| Regex := None; IntGt := None; IntLt := None;
     FloatGt := gt; FloatLt := lt; FloatEpsilon := eps;
     FloatGte := gte; FloatLte := lte; StringNotEmpty := None;
     RepeatedCountMin := None; RepeatedCountMax := None;
     LengthGt := None; LengthLt := None; LengthEq := None;
     IsInEnum := None |}.

Definition rule_string (regex : option string) (notEmpty : option bool)
    (lenLt : option Z) : FieldValidator :=
  {| Regex := regex; IntGt := None; IntLt := None;
     FloatGt := None; FloatLt := None; FloatEpsilon := None;
     FloatGte := None; FloatLte := None; StringNotEmpty := notEmpty;
     RepeatedCountMin := None; RepeatedCountMax := None;
     LengthGt := None; LengthLt := lenLt; LengthEq := None;
     IsInEnum := None |}.

Definition rule_count (min max : option Z) : FieldValidator :=
  {| Regex := None; IntGt := None; IntLt := None;
     FloatGt := None; FloatLt := None; FloatEpsilon := None;
     FloatGte := None; FloatLte := None; StringNotEmpty := None;
     RepeatedCountMin := min; RepeatedCountMax := max;
     LengthGt := None; LengthLt := None; LengthEq := None;
     IsInEnum := None |}.

Definition rule_enum : FieldValidator :=
  {| Regex := None; IntGt := None; IntLt := None;
     FloatGt := None; FloatLt := None; FloatEpsilon := None;
     FloatGte := None; FloatLte := None; StringNotEmpty := None;
     RepeatedCountMin := None; RepeatedCountMax := None;
     LengthGt := None; LengthLt := None; LengthEq := None;
     IsInEnum := Some true |}.

Definition options_of (rule : option FieldValidator) : option FieldOptions :=
  match rule with
  | Some rule => Some {| E_Field := ExtFieldValidator rule |}
  | None => None
  end.

(** A singular field, a repeated field and a map field. *)
Definition singular (name : string) (t : FieldType)
    (rule : option FieldValidator) : FieldDescriptor :=
  MkField name t false false false (options_of rule) [] None None.

Definition repeated (name : string) (t : FieldType)
    (rule : option FieldValidator) : FieldDescriptor :=
  MkField name t false false true (options_of rule) [] None None.

Definition map_of (name : string) (keyType valueType : FieldType)
    (rule : option FieldValidator) : FieldDescriptor :=
  MkField name TYPE_MESSAGE false true true (options_of rule) []
    (Some (singular "key" keyType None))
    (Some (singular "value" valueType None)).

(** An enum field whose enum type declares the numbers 0 and 1. *)
Definition enum_field (name : string) (rule : option FieldValidator)
    : FieldDescriptor :=
  MkField name TYPE_ENUM false false false (options_of rule) [0; 1] None None.

(** Scenario A: an age that must lie strictly between 0 and 150. *)
Definition f_age : FieldDescriptor :=
  singular "age" TYPE_INT32 (Some (rule_int (Some 0) (Some 150))).

(** A message whose first field holds a string under a declared int32. *)
Definition f_count : FieldDescriptor := singular "count" TYPE_INT32 None.

Definition msg_mismatch : Message :=
  DynMessage [(f_count, Some (VString "oops")); (f_age, Some (VInt32 0))].

(** A uint64 identifier that must be positive. *)
Definition f_id : FieldDescriptor :=
  singular "id" TYPE_UINT64 (Some (rule_int (Some 0) None)).

(** A map from int32 keys, which must be positive, to strings, and one
    map of two entries in its two iteration orders. *)
Definition f_scores : FieldDescriptor :=
  map_of "scores" TYPE_INT32 TYPE_STRING (Some (rule_int (Some 0) None)).

Definition scores_ab : list (Value * Value) :=
  [(VInt32 (-1), VString "a"); (VInt32 (-2), VString "b")].

Definition scores_ba : list (Value * Value) :=
  [(VInt32 (-2), VString "b"); (VInt32 (-1), VString "a")].

Definition msg_scores (entries : list (Value * Value)) : Message :=
  DynMessage [(f_scores, Some (VMap entries))].

(** Scenario C: between one and three tags. *)
Definition rule_tags : FieldValidator := rule_count (Some 1) (Some 3).
Definition f_tags : FieldDescriptor := repeated "tags" TYPE_STRING (Some rule_tags).

(** Scenario D: a score at least 0.30 within 0.05; and a ratio that
    must be positive. *)
Definition rule_score : FieldValidator :=
  rule_float None None (Some 0.05%float) (Some 0.30%float) None.
Definition f_score : FieldDescriptor := singular "score" TYPE_DOUBLE (Some rule_score).

Definition rule_ratio : FieldValidator :=
  rule_float (Some 0%float) None None None None.
Definition f_ratio : FieldDescriptor := singular "ratio" TYPE_DOUBLE (Some rule_ratio).

(** Scenario E: an owner message, itself under a rule, whose age is 0. *)
Definition msg_owner : Message := DynMessage [(f_age, Some (VInt32 0))].
Definition f_owner : FieldDescriptor :=
  singular "owner" TYPE_MESSAGE (Some (rule_string None (Some true) None)).
Definition msg_account : Message :=
  DynMessage [(f_owner, Some (VMessage msg_owner))].

(** Scenario B: a name that is not empty and shorter than 50, with and
    without a pattern. *)
Definition rule_person : FieldValidator := rule_string None (Some true) (Some 50).
Definition f_person : FieldDescriptor :=
  singular "name" TYPE_STRING (Some rule_person).
Definition rule_code : FieldValidator := rule_string (Some "ab") None None.
Definition f_code : FieldDescriptor := singular "code" TYPE_STRING (Some rule_code).

(** Scenario B with a pattern that does not compile. *)
Definition rule_name : FieldValidator :=
  rule_string (Some "(") (Some true) (Some 50).
Definition f_name : FieldDescriptor := singular "name" TYPE_STRING (Some rule_name).

(** A color outside its enum, and a flag under an integer rule. *)
Definition f_color : FieldDescriptor := enum_field "color" (Some rule_enum).
Definition msg_color : Message := DynMessage [(f_color, Some (VInt32 7))].
Definition f_flag : FieldDescriptor :=
  singular "flag" TYPE_BOOL (Some (rule_int (Some 0) None)).

(** A field outside the message's own declaration, a record with no
    rule anywhere, and an account whose owner holds a string under a
    declared int32. *)
Definition f_ext : FieldDescriptor :=
  MkField "ext" TYPE_INT32 true false false
    (options_of (Some (rule_int (Some 0) None))) [] None None.

Definition f_note : FieldDescriptor := singular "note" TYPE_MESSAGE None.

Definition msg_plain : Message :=
  DynMessage [(f_count, Some (VInt32 5));
              (f_note, Some (VMessage (DynMessage [(f_count, Some (VInt32 (-3)))])))].

Definition msg_broken_owner : Message :=
  DynMessage [(f_owner, Some (VMessage (DynMessage [(f_count, Some (VString "oops"))])));
              (f_age, Some (VInt32 0))].

(** Rules on lengths, a zip code of exactly five bytes, a blob, and
    integer bounds that no value meets. *)
Definition rule_length (gt lt eq : option Z) : FieldValidator :=
  {| Regex := None; IntGt := None; IntLt := None;
     FloatGt := None; FloatLt := None; FloatEpsilon := None;
     FloatGte := None; FloatLte := None; StringNotEmpty := None;
     RepeatedCountMin := None; RepeatedCountMax := None;
     LengthGt := gt; LengthLt := lt; LengthEq := eq;
     IsInEnum := None |}.

Definition rule_zip : FieldValidator := rule_length None None (Some 5).
Definition f_zip : FieldDescriptor := singular "zip" TYPE_STRING (Some rule_zip).
Definition rule_blob : FieldValidator := rule_length (Some 0) (Some 4) None.
Definition f_blob : FieldDescriptor := singular "blob" TYPE_BYTES (Some rule_blob).
Definition rule_void : FieldValidator := rule_int (Some 10) (Some 5).
Definition f_void : FieldDescriptor := singular "void" TYPE_INT64 (Some rule_void).

(** A stand-in for the regexp package in the examples: a pattern free
    of parentheses compiles to itself and matches the strings that
    contain it; any other pattern is a compile error. *)
Definition lit_Compile (expr : string) : option string :=
  match String.index 0 "(" expr, String.index 0 ")" expr with
  | None, None => Some expr
  | _, _ => None
  end.

Definition lit_MatchString (exp s : string) : bool :=
  match String.index 0 exp s with
  | Some _ => true
  | None => false
  end.

(** ** The regexp cache and the engine *)

(** Go's [regexp] package is outside the repository: the engine is
    stated over any compiler ([None] is a compile error) and matcher. *)
Section Engine.

Variable Regexp : Type.
Variable regexp_Compile : string -> option Regexp.
Variable MatchString : Regexp -> string -> bool.

(** The contents of the process-wide [regCache]. *)
Local Abbreviation regCache := (gmap string Regexp).

(** [regCache.reset] *)
Definition reset (r : regCache) : regCache := ∅.

(** [regCache.Get]: the compiled pattern or the compile error, and the
    cache afterwards. *)
Definition Get (expr : string) (r : regCache) : option Regexp * regCache :=
  match r !! expr with
  | Some exp => (Some exp, r)
  | None =>
    match regexp_Compile expr with
    | None => (None, r)
    | Some exp => (Some exp, <[expr := exp]> r)
    end
  end.

(** [checkString]; [len] of a Go string counts its bytes. *)
Definition checkString (field : FieldDescriptor) (value : string)
    (rule : option FieldValidator) (r : regCache)
    : option ValidError * regCache :=
  match rule with
  | None => (None, r)
  | Some rule =>
    check (StringNotEmpty rule) (fun notEmpty => notEmpty && String.eqb value "")
      (fun notEmpty =>
         (Some (ValidFail field "StringNotEmpty" (VBool notEmpty) (VString value)), r))
    (let _len := Z.of_nat (String.length value) in
    check (LengthGt rule) (fun gt => negb (_len >? gt))
      (fun gt => (Some (ValidFail field "LengthGt" (VInt64 gt) (VInt64 _len)), r))
    (check (LengthLt rule) (fun lt => negb (_len <? lt))
      (fun lt => (Some (ValidFail field "LengthLt" (VInt64 lt) (VInt64 _len)), r))
    (check (LengthEq rule) (fun eq => negb (_len =? eq))
      (fun eq => (Some (ValidFail field "LengthEq" (VInt64 eq) (VInt64 _len)), r))
    match Regex rule with
    | None => (None, r)
    | Some expr =>
      match Get expr r with
      | (None, r') => (None, r')
      | (Some exp, r') =>
        if negb (MatchString exp value)
        then (Some (ValidFail field "Regex" (VString expr) (VString value)), r')
        else (None, r')
      end
    end)))
  end.

(** A call of the engine: it runs against the cache and returns or
    panics. *)
Definition M : Type := regCache -> Res * regCache.

Definition ret (err : option ValidError) : M := fun r => (Return err, r).
Definition panic : M := fun r => (Panic, r).

(** [if err := m; err != nil { return err }] followed by [k]. *)
Definition and_then (m k : M) : M :=
  fun r =>
    match m r with
    | (Return None, r') => k r'
    | other => other
    end.

(** [defer func() { if p := recover(); p != nil { err = nil } }()] *)
Definition recover (m : M) : M :=
  fun r =>
    match m r with
    | (Panic, r') => (Return None, r')
    | other => other
    end.

Section ForRange.
Context {A : Type} (body : A -> M).

(** [for _, x := range l { if err := body(x); err != nil { return err } }
    return nil] *)
Fixpoint for_range (l : list A) : M :=
  match l with
  | [] => ret None
  | x :: rest => and_then (body x) (for_range rest)
  end.

End ForRange.

Section Traversal.

(** The recursive call of [ValidMsg] made by [checkMessage]. *)
Variable ValidMsg : Message -> M.

(** [checkMessage] *)
Definition checkMessageF (field : FieldDescriptor) (value : Value)
    (rule : option FieldValidator) : M :=
  match value with
  | VMessage subMsg => ValidMsg subMsg
  | _ => ret None
  end.

(** [validField]: a failed type assertion [value.(T)] panics. *)
Definition validFieldF (field : FieldDescriptor) (value : Value)
    (rule : option FieldValidator) : M :=
  match value with
  | VNil => ret None
  | _ =>
    match GetType field with
    | TYPE_MESSAGE => checkMessageF field value rule
    | TYPE_INT32 | TYPE_SINT32 | TYPE_SFIXED32 =>
      match value with
      | VInt32 n => ret (checkInt field (int64 n) rule)
      | _ => panic
      end
    | TYPE_INT64 | TYPE_SINT64 | TYPE_SFIXED64 =>
      match value with
      | VInt64 n => ret (checkInt field n rule)
      | _ => panic
      end
    | TYPE_UINT32 | TYPE_FIXED32 =>
      match value with
      | VUint32 n => ret (checkInt field (int64 n) rule)
      | _ => panic
      end
    | TYPE_UINT64 | TYPE_FIXED64 =>
      match value with
      | VUint64 n => ret (checkInt field (int64 n) rule)
      | _ => panic
      end
    | TYPE_FLOAT =>
      match value with
      | VFloat32 x => ret (checkFloat field x rule)
      | _ => panic
      end
    | TYPE_DOUBLE =>
      match value with
      | VFloat64 x => ret (checkFloat field x rule)
      | _ => panic
      end
    | TYPE_STRING =>
      match value with
      | VString s => fun r => let (err, r') := checkString field s rule r in (Return err, r')
      | _ => panic
      end
    | TYPE_BYTES =>
      match value with
      | VBytes b => ret (checkBytes field b rule)
      | _ => panic
      end
    | TYPE_ENUM =>
      match value with
      | VInt32 n => ret (checkEnum field n rule)
      | _ => panic
      end
    | TYPE_BOOL | TYPE_GROUP => ret None
    end
  end.

(** [validField] through a descriptor pointer that may be nil, as
    [GetMapKeyType] and [GetMapValueType] return: [GetType] through the
    nil pointer panics, after the test of the value against nil. *)
Definition validFieldP (field : option FieldDescriptor) (value : Value)
    (rule : option FieldValidator) : M :=
  match field with
  | Some field => validFieldF field value rule
  | None => match value with VNil => ret None | _ => panic end
  end.

(** [validRepeated] *)
Definition validRepeatedF (field : FieldDescriptor) (value : Value)
    (rule : option FieldValidator) : M :=
  match value with
  | VNil => ret None
  | VList vList =>
    and_then (ret (checkRepeated field vList rule))
      (for_range (fun item => validFieldF field item rule) vList)
  | _ => ret None
  end.

(** [validMap] *)
Definition validMapF (field : FieldDescriptor) (value : Value)
    (rule : option FieldValidator) : M :=
  match value with
  | VNil => ret None
  | VMap vList =>
    for_range (fun entry : Value * Value =>
      and_then (validFieldP (GetMapKeyType field) (fst entry) rule)
               (validFieldP (GetMapValueType field) (snd entry) None)) vList
  | _ => ret None
  end.

(** The body of the loop of [Valid] for one known field. *)
Definition validKnownF (slot : FieldDescriptor * option Value) : M :=
  let field := fst slot in
  if IsExtension field then ret None
  else
    match snd slot with
    | None => ret None
    | Some value =>
      let rule := getRule field in
      if IsMap field then validMapF field value rule
      else if IsRepeated field then validRepeatedF field value rule
      else validFieldF field value rule
    end.

(** [validator.Valid] *)
Definition ValidF (msg : Message) : M :=
  match msg with
  | NilMessage => ret None
  | DynMessage fields => for_range validKnownF fields
  end.

End Traversal.

(** [ValidMsg]: the deferred recover around [Valid], whose
    [checkMessage] calls [ValidMsg] on the nested message. *)
Fixpoint ValidMsg (msg : Message) {struct msg} : M :=
  recover (ValidF ValidMsg msg).

(** The functions of valid.go, their recursive call being [ValidMsg]. *)
Definition Valid : Message -> M := ValidF ValidMsg.
Definition checkMessage := checkMessageF ValidMsg.
Definition validField := validFieldF ValidMsg.
Definition validRepeated := validRepeatedF ValidMsg.
Definition validMap := validMapF ValidMsg.
Definition validKnown := validKnownF ValidMsg.

(** The declared kinds that [validField] has a case for. *)
Definition checked_kind (t : FieldType) : bool :=
  match t with
  | TYPE_MESSAGE
  | TYPE_INT32 | TYPE_SINT32 | TYPE_SFIXED32
  | TYPE_INT64 | TYPE_SINT64 | TYPE_SFIXED64
  | TYPE_UINT32 | TYPE_FIXED32
  | TYPE_UINT64 | TYPE_FIXED64
  | TYPE_FLOAT | TYPE_DOUBLE | TYPE_STRING | TYPE_BYTES | TYPE_ENUM => true
  | TYPE_BOOL | TYPE_GROUP => false
  end.

(** The Go type that the type assertion of [validField] asks of a
    value of each declared kind. *)
Definition shape_ok (t : FieldType) (value : Value) : bool :=
  match value with
  | VNil => true
  | _ =>
    match t with
    | TYPE_MESSAGE | TYPE_BOOL | TYPE_GROUP => true
    | TYPE_INT32 | TYPE_SINT32 | TYPE_SFIXED32 | TYPE_ENUM =>
      match value with VInt32 _ => true | _ => false end
    | TYPE_INT64 | TYPE_SINT64 | TYPE_SFIXED64 =>
      match value with VInt64 _ => true | _ => false end
    | TYPE_UINT32 | TYPE_FIXED32 =>
      match value with VUint32 _ => true | _ => false end
    | TYPE_UINT64 | TYPE_FIXED64 =>
      match value with VUint64 _ => true | _ => false end
    | TYPE_FLOAT => match value with VFloat32 _ => true | _ => false end
    | TYPE_DOUBLE => match value with VFloat64 _ => true | _ => false end
    | TYPE_STRING => match value with VString _ => true | _ => false end
    | TYPE_BYTES => match value with VBytes _ => true | _ => false end
    end
  end.

(** A rule with its regex constraint unset. *)
Definition without_regex (rule : FieldValidator) : FieldValidator :=
  {| Regex := None;
     IntGt := IntGt rule; IntLt := IntLt rule;
     FloatGt := FloatGt rule; FloatLt := FloatLt rule;
     FloatEpsilon := FloatEpsilon rule;
     FloatGte := FloatGte rule; FloatLte := FloatLte rule;
     StringNotEmpty := StringNotEmpty rule;
     RepeatedCountMin := RepeatedCountMin rule;
     RepeatedCountMax := RepeatedCountMax rule;
     LengthGt := LengthGt rule; LengthLt := LengthLt rule;
     LengthEq := LengthEq rule;
     IsInEnum := IsInEnum rule |}.

(** The check of one map entry, key first. *)
Definition validEntry (keyType valueType : FieldDescriptor)
    (rule : option FieldValidator) (entry : Value * Value) : M :=
  and_then (validField keyType (fst entry) rule)
           (validField valueType (snd entry) None).

(** Every element of [l] passes [body] (it returns nil), one after the
    other, taking the cache from [r] to [r']. *)
Inductive all_pass {A : Type} (body : A -> M)
  : list A -> regCache -> regCache -> Prop :=
| all_pass_nil r : all_pass body [] r r
| all_pass_cons x l r r1 r2 :
    body x r = (Return None, r1) -> all_pass body l r1 r2 ->
    all_pass body (x :: l) r r2.

(** A cache holds only what [regexp.Compile] returned for its key:
    [Get] is the only writer. *)
Definition cache_ok (r : regCache) : Prop :=
  forall expr exp, r !! expr = Some exp -> regexp_Compile expr = Some exp.

(** The constraints of a rule that a checker can report. *)
Inductive Constraint :=
| CRegex | CIntGt | CIntLt | CFloatGt | CFloatLt | CFloatGte | CFloatLte
| CStringNotEmpty | CRepeatedCountMin | CRepeatedCountMax
| CLengthGt | CLengthLt | CLengthEq | CIsInEnum.

(** The name under which each checker reports the constraint. *)
Definition constraint_name (c : Constraint) : string :=
  match c with
  | CRegex => "Regex" | CIntGt => "IntGt" | CIntLt => "IntLt"
  | CFloatGt => "FloatGt" | CFloatLt => "FloatLt"
  | CFloatGte => "FloatGte" | CFloatLte => "FloatLte"
  | CStringNotEmpty => "StringNotEmpty"
  | CRepeatedCountMin => "RepeatedCountMin"
  | CRepeatedCountMax => "RepeatedCountMax"
  | CLengthGt => "LengthGt" | CLengthLt => "LengthLt"
  | CLengthEq => "LengthEq" | CIsInEnum => "IsInEnum"
  end.

(** The configured threshold of a constraint, as the error carries it. *)
Definition threshold (c : Constraint) (rule : FieldValidator) : option Value :=
  match c with
  | CRegex => VString <$> Regex rule
  | CIntGt => VInt64 <$> IntGt rule
  | CIntLt => VInt64 <$> IntLt rule
  | CFloatGt => VFloat64 <$> FloatGt rule
  | CFloatLt => VFloat64 <$> FloatLt rule
  | CFloatGte => VFloat64 <$> FloatGte rule
  | CFloatLte => VFloat64 <$> FloatLte rule
  | CStringNotEmpty => VBool <$> StringNotEmpty rule
  | CRepeatedCountMin => VInt64 <$> RepeatedCountMin rule
  | CRepeatedCountMax => VInt64 <$> RepeatedCountMax rule
  | CLengthGt => VInt64 <$> LengthGt rule
  | CLengthLt => VInt64 <$> LengthLt rule
  | CLengthEq => VInt64 <$> LengthEq rule
  | CIsInEnum => VBool <$> IsInEnum rule
  end.

(** What the error of a constraint carries as the value found: the
    value as an int64 or a float64, the string, a length, a count, and
    for the enum test the boolean false. *)
Definition observed (c : Constraint) (value : Value) : option Value :=
  match c with
  | CIntGt | CIntLt =>
    match value with
    | VInt32 n | VUint32 n | VUint64 n => Some (VInt64 (int64 n))
    | VInt64 n => Some (VInt64 n)
    | _ => None
    end
  | CFloatGt | CFloatLt | CFloatGte | CFloatLte =>
    match value with
    | VFloat32 x | VFloat64 x => Some (VFloat64 x)
    | _ => None
    end
  | CRegex | CStringNotEmpty =>
    match value with
    | VString s => Some (VString s)
    | _ => None
    end
  | CLengthGt | CLengthLt | CLengthEq =>
    match value with
    | VString s => Some (VInt64 (Z.of_nat (String.length s)))
    | VBytes b => Some (VInt64 (Z.of_nat (length b)))
    | _ => None
    end
  | CRepeatedCountMin | CRepeatedCountMax =>
    match value with
    | VList l => Some (VInt64 (Z.of_nat (length l)))
    | _ => None
    end
  | CIsInEnum =>
    match value with
    | VInt32 _ => Some (VBool false)
    | _ => None
    end
  end.

(** The error reports a constraint of [rule] on the value of [f]. *)
Definition Reported (f : FieldDescriptor) (value : Value)
    (rule : FieldValidator) (e : ValidError) : Prop :=
  exists c t o,
    threshold c rule = Some t /\ observed c value = Some o /\
    e = ValidFail f (constraint_name c) t o.

(** The units that the traversal can reach from a field, its value and
    the rule it is checked under, and from a message: a descriptor, a
    value and the rule applied to it. A known field comes with the rule
    of [getRule]; the items of a list and the keys of a map are checked
    under the rule of their field, the values of a map under no rule. *)
Inductive within
  : FieldDescriptor -> Value -> option FieldValidator ->
    FieldDescriptor -> Value -> option FieldValidator -> Prop :=
| within_here f v rule : within f v rule f v rule
| within_item f l rule item f' v' rule' :
    item ∈ l -> within f item rule f' v' rule' ->
    within f (VList l) rule f' v' rule'
| within_key f l rule key item keyType f' v' rule' :
    (key, item) ∈ l -> GetMapKeyType f = Some keyType ->
    within keyType key rule f' v' rule' ->
    within f (VMap l) rule f' v' rule'
| within_value f l rule key item valueType f' v' rule' :
    (key, item) ∈ l -> GetMapValueType f = Some valueType ->
    within valueType item None f' v' rule' ->
    within f (VMap l) rule f' v' rule'
| within_nested f m rule f' v' rule' :
    checked_in m f' v' rule' -> within f (VMessage m) rule f' v' rule'
with checked_in
  : Message -> FieldDescriptor -> Value -> option FieldValidator -> Prop :=
| checked_known known f v f' v' rule' :
    (f, Some v) ∈ known -> within f v (getRule f) f' v' rule' ->
    checked_in (DynMessage known) f' v' rule'.

(** What a call returns from the empty cache. *)
Definition run (m : M) : Res := fst (m ∅).

(** The first outcome in a list that is not a nil return. *)
Fixpoint first_stop (l : list Res) : Res :=
  match l with
  | [] => Return None
  | Return None :: rest => first_stop rest
  | res :: _ => res
  end.

(** The values that hold no other value. *)
Definition leaf (v : Value) : Prop :=
  match v with
  | VMessage _ | VList _ | VMap _ => False
  | _ => True
  end.

(** A call is stable when, from any cache [Get] can have built, it
    leaves such a cache and returns what it returns from the empty one. *)
Definition stable (m : M) : Prop :=
  forall r, cache_ok r -> cache_ok (snd (m r)) /\ fst (m r) = fst (m ∅).

(** The three ways [Valid] can check the value of a known field. *)
Definition stable_value (value : Value) : Prop :=
  forall field rule,
    stable (validField field value rule) /\
    stable (validRepeated field value rule) /\
    stable (validMap field value rule).

(** The declared kinds checked by [checkInt], each with the Go type of
    its values and the range of that type. *)
Definition int_typed (t : FieldType) (value : Value) (n : Z) : Prop :=
  match t with
  | TYPE_INT32 | TYPE_SINT32 | TYPE_SFIXED32 => value = VInt32 n /\ in_int32 n
  | TYPE_INT64 | TYPE_SINT64 | TYPE_SFIXED64 => value = VInt64 n /\ in_int64 n
  | TYPE_UINT32 | TYPE_FIXED32 => value = VUint32 n /\ in_uint32 n
  | TYPE_UINT64 | TYPE_FIXED64 => value = VUint64 n /\ in_uint64 n
  | _ => False
  end.

(** Every violation [validField], [validRepeated] or [validMap] returns
    on a value reports a constraint on a pair reached from it. *)
Definition reports_within (value : Value) : Prop :=
  forall f rule r e r',
    validField f value rule r = (Return (Some e), r') \/
    validRepeated f value rule r = (Return (Some e), r') \/
    validMap f value rule r = (Return (Some e), r') ->
    exists f' v' rule',
      within f value rule f' v' (Some rule') /\ Reported f' v' rule' e.

(** A call only adds to the cache. *)
Definition grows (m : M) : Prop := forall r, r ⊆ snd (m r).

Definition grows_value (value : Value) : Prop :=
  forall field rule,
    grows (validField field value rule) /\
    grows (validRepeated field value rule) /\
    grows (validMap field value rule).

(** A known field that the loop of [Valid] passes over: an extension,
    a field whose value could not be read, or a nil value. *)
Definition skipped (slot : FieldDescriptor * option Value) : Prop :=
  IsExtension (fst slot) = true \/ snd slot = None \/ snd slot = Some VNil.

(** The five tests of [checkString] and the three of [checkBytes], as
    conditions on the value. *)
Definition string_fails (value : string) (rule : FieldValidator) : Prop :=
  let n := Z.of_nat (String.length value) in
  (StringNotEmpty rule = Some true /\ value = "") \/
  (exists gt, LengthGt rule = Some gt /\ n <= gt) \/
  (exists lt, LengthLt rule = Some lt /\ lt <= n) \/
  (exists eq, LengthEq rule = Some eq /\ n <> eq) \/
  (exists expr exp,
     Regex rule = Some expr /\ regexp_Compile expr = Some exp /\
     MatchString exp value = false).

Definition bytes_fails (value : list Byte.byte) (rule : FieldValidator) : Prop :=
  let n := Z.of_nat (length value) in
  (exists gt, LengthGt rule = Some gt /\ n <= gt) \/
  (exists lt, LengthLt rule = Some lt /\ lt <= n) \/
  (exists eq, LengthEq rule = Some eq /\ n <> eq).

(** The constraints of a rule that the checker of a declared kind
    reads, the others unset. *)
Definition restrict (t : FieldType) (rule : FieldValidator) : FieldValidator :=
  match t with
  | TYPE_INT32 | TYPE_SINT32 | TYPE_SFIXED32
  | TYPE_INT64 | TYPE_SINT64 | TYPE_SFIXED64
  | TYPE_UINT32 | TYPE_FIXED32 | TYPE_UINT64 | TYPE_FIXED64 =>
    rule_int (IntGt rule) (IntLt rule)
  | TYPE_FLOAT | TYPE_DOUBLE =>
    rule_float (FloatGt rule) (FloatLt rule) (FloatEpsilon rule)
               (FloatGte rule) (FloatLte rule)
  | TYPE_STRING =>
    {| Regex := Regex rule; IntGt := None; IntLt := None;
       FloatGt := None; FloatLt := None; FloatEpsilon := None;
       FloatGte := None; FloatLte := None;
       StringNotEmpty := StringNotEmpty rule;
       RepeatedCountMin := None; RepeatedCountMax := None;
       LengthGt := LengthGt rule; LengthLt := LengthLt rule;
       LengthEq := LengthEq rule; IsInEnum := None |}
  | TYPE_BYTES => rule_length (LengthGt rule) (LengthLt rule) (LengthEq rule)
  | TYPE_ENUM =>
    {| Regex := None; IntGt := None; IntLt := None;
       FloatGt := None; FloatLt := None; FloatEpsilon := None;
       FloatGte := None; FloatLte := None; StringNotEmpty := None;
       RepeatedCountMin := None; RepeatedCountMax := None;
       LengthGt := None; LengthLt := None; LengthEq := None;
       IsInEnum := IsInEnum rule |}
  | TYPE_MESSAGE | TYPE_BOOL | TYPE_GROUP => no_rule
  end.

(** A rule with other bounds on the element count. *)
Definition with_counts (min max : option Z) (rule : FieldValidator)
    : FieldValidator :=
  {| Regex := Regex rule;
     IntGt := IntGt rule; IntLt := IntLt rule;
     FloatGt := FloatGt rule; FloatLt := FloatLt rule;
     FloatEpsilon := FloatEpsilon rule;
     FloatGte := FloatGte rule; FloatLte := FloatLte rule;
     StringNotEmpty := StringNotEmpty rule;
     RepeatedCountMin := min; RepeatedCountMax := max;
     LengthGt := LengthGt rule; LengthLt := LengthLt rule;
     LengthEq := LengthEq rule;
     IsInEnum := IsInEnum rule |}.

(** The condition under which a checker reports a constraint: the
    comparison of the source, on the value as the checker reads it (an
    integer as an int64, a float widened by the epsilon, a length, a
    count), that makes it return the error. *)
Definition broken (c : Constraint) (f : FieldDescriptor) (value : Value)
    (rule : FieldValidator) : Prop :=
  match c with
  | CIntGt | CLengthGt =>
    exists n t, observed c value = Some (VInt64 n) /\
                threshold c rule = Some (VInt64 t) /\ n <= t
  | CIntLt | CLengthLt =>
    exists n t, observed c value = Some (VInt64 n) /\
                threshold c rule = Some (VInt64 t) /\ t <= n
  | CLengthEq =>
    exists n t, observed c value = Some (VInt64 n) /\
                threshold c rule = Some (VInt64 t) /\ n <> t
  | CRepeatedCountMin =>
    exists n t, observed c value = Some (VInt64 n) /\
                threshold c rule = Some (VInt64 t) /\ n < t
  | CRepeatedCountMax =>
    exists n t, observed c value = Some (VInt64 n) /\
                threshold c rule = Some (VInt64 t) /\ t < n
  | CFloatGt =>
    exists x t, observed c value = Some (VFloat64 x) /\ FloatGt rule = Some t /\
                (t <? valueMax x rule)%float = false
  | CFloatLt =>
    exists x t, observed c value = Some (VFloat64 x) /\ FloatLt rule = Some t /\
                (valueMin x rule <? t)%float = false
  | CFloatGte =>
    exists x t, observed c value = Some (VFloat64 x) /\ FloatGte rule = Some t /\
                (t <=? valueMax x rule)%float = false
  | CFloatLte =>
    exists x t, observed c value = Some (VFloat64 x) /\ FloatLte rule = Some t /\
                (valueMin x rule <=? t)%float = false
  | CStringNotEmpty =>
    StringNotEmpty rule = Some true /\ value = VString ""
  | CRegex =>
    exists s expr exp,
      value = VString s /\ Regex rule = Some expr /\
      regexp_Compile expr = Some exp /\ MatchString exp s = false
  | CIsInEnum =>
    exists n, value = VInt32 n /\ IsInEnum rule = Some true /\
              n ∉ GetEnumValues f
  end.

(** The error reports a constraint of [rule] that the value of [f]
    breaks. *)
Definition Violated (f : FieldDescriptor) (value : Value)
    (rule : FieldValidator) (e : ValidError) : Prop :=
  exists c t o,
    threshold c rule = Some t /\ observed c value = Some o /\
    e = ValidFail f (constraint_name c) t o /\
    broken c f value rule.

(** Every violation returned on a value, from a cache that only [Get]
    has written, reports a broken constraint on a pair reached from
    it. *)
Definition violates_within (value : Value) : Prop :=
  forall f rule r e r',
    cache_ok r ->
    validField f value rule r = (Return (Some e), r') \/
    validRepeated f value rule r = (Return (Some e), r') \/
    validMap f value rule r = (Return (Some e), r') ->
    exists f' v' rule',
      within f value rule f' v' (Some rule') /\ Violated f' v' rule' e.

(** ** Properties *)

(** *** The control operators *)

Lemma ValidMsg_unfold msg : ValidMsg msg = recover (Valid msg).
Proof. destruct msg; reflexivity. Qed.

Lemma and_then_pass (m k : M) r r' :
  m r = (Return None, r') -> and_then m k r = k r'.
Proof. unfold and_then. intros ->. reflexivity. Qed.

Lemma and_then_stop (m k : M) r res r' :
  m r = (res, r') -> res <> Return None -> and_then m k r = (res, r').
Proof.
  unfold and_then. intros -> Hne.
  destruct res as [[e|]|]; try reflexivity. congruence.
Qed.

Lemma and_then_ret_None (k : M) r : and_then (ret None) k r = k r.
Proof. reflexivity. Qed.

Lemma and_then_error_inv (m k : M) r e r' :
  and_then m k r = (Return (Some e), r') ->
  m r = (Return (Some e), r') \/
  exists r1, m r = (Return None, r1) /\ k r1 = (Return (Some e), r').
Proof.
  unfold and_then. destruct (m r) as [[[e0|]|] r1]; eauto.
Qed.

Lemma for_range_app {A} (body : A -> M) pre post r :
  for_range body (pre ++ post) r
  = and_then (for_range body pre) (for_range body post) r.
Proof.
  revert r. induction pre as [|x pre IH]; intros r; simpl.
  - reflexivity.
  - unfold and_then. destruct (body x r) as [[[e|]|] r1]; try reflexivity.
    apply IH.
Qed.

(** The loop returns what the first element that does not pass gives. *)
Lemma for_range_first {A} (body : A -> M) pre x post r r1 res r2 :
  for_range body pre r = (Return None, r1) ->
  body x r1 = (res, r2) -> res <> Return None ->
  for_range body (pre ++ x :: post) r = (res, r2).
Proof.
  intros Hpre Hx Hne. rewrite for_range_app.
  rewrite (and_then_pass _ _ _ _ Hpre). simpl.
  exact (and_then_stop _ _ _ _ _ Hx Hne).
Qed.

(** An error out of the loop comes from one element, reached after all
    the elements before it passed. *)
Lemma for_range_error_inv {A} (body : A -> M) l r e r' :
  for_range body l r = (Return (Some e), r') ->
  exists pre x post r1,
    l = pre ++ x :: post /\
    for_range body pre r = (Return None, r1) /\
    body x r1 = (Return (Some e), r').
Proof.
  revert r. induction l as [|x l IH]; intros r H; simpl in H.
  - discriminate.
  - destruct (and_then_error_inv _ _ _ _ _ H) as [Hx | (r1 & Hx & Hl)].
    + exists [], x, l, r. auto.
    + destruct (IH _ Hl) as (pre & y & post & r2 & -> & Hpre & Hy).
      exists (x :: pre), y, post, r2. split; [reflexivity|]. split; [|exact Hy].
      simpl. rewrite (and_then_pass _ _ _ _ Hx). exact Hpre.
Qed.

Lemma for_range_all_pass {A} (body : A -> M) l r r' :
  for_range body l r = (Return None, r') <-> all_pass body l r r'.
Proof.
  split.
  - revert r. induction l as [|x l IH]; intros r H; simpl in H.
    + injection H as <-. constructor.
    + unfold and_then in H. destruct (body x r) as [[[e|]|] r1] eqn:Hx;
        try discriminate.
      econstructor; [exact Hx|]. apply IH, H.
  - induction 1 as [|x l r r1 r2 Hx _ IH]; simpl; [reflexivity|].
    rewrite (and_then_pass _ _ _ _ Hx). exact IH.
Qed.

Lemma for_range_ext {A} (f g : A -> M) l :
  (forall x, x ∈ l -> f x = g x) -> for_range f l = for_range g l.
Proof.
  induction l as [|x l IH]; intros H; simpl; [reflexivity|].
  rewrite (H x) by constructor. rewrite IH; [reflexivity|].
  intros y Hy. apply H. by constructor.
Qed.

Lemma recover_no_panic (m : M) r : fst (recover m r) <> Panic.
Proof. unfold recover. destruct (m r) as [[e|] r']; simpl; congruence. Qed.

Lemma recover_panic (m : M) r r' :
  m r = (Panic, r') -> recover m r = (Return None, r').
Proof. unfold recover. intros ->. reflexivity. Qed.

Lemma recover_return (m : M) r err r' :
  m r = (Return err, r') -> recover m r = (Return err, r').
Proof. unfold recover. intros ->. reflexivity. Qed.

Lemma recover_error_inv (m : M) r e r' :
  recover m r = (Return (Some e), r') -> m r = (Return (Some e), r').
Proof. unfold recover. destruct (m r) as [[[e0|]|] r1]; congruence. Qed.

(** *** Induction over nested values *)

Lemma Value_Message_ind (P : Value -> Prop) (Q : Message -> Prop) :
  (forall v, leaf v -> P v) ->
  (forall m, Q m -> P (VMessage m)) ->
  (forall l, Forall P l -> P (VList l)) ->
  (forall l, Forall (fun e => P (fst e) /\ P (snd e)) l -> P (VMap l)) ->
  Q NilMessage ->
  (forall known,
     Forall (fun slot => forall v, snd slot = Some v -> P v) known ->
     Q (DynMessage known)) ->
  (forall v, P v) /\ (forall m, Q m).
Proof.
  intros Hleaf Hmsg Hlist Hmap Hnil Hdyn.
  assert (HV : forall v, P v).
  { fix IHv 1 with (IHm (m : Message) {struct m} : Q m).
    - intros v. destruct v as [| | | | | | | | | |m|l|l];
        try (apply Hleaf; exact I).
      + apply Hmsg, IHm.
      + apply Hlist. revert l. fix IHl 1. intros [|x l]; constructor.
        * apply IHv.
        * apply IHl.
      + apply Hmap. revert l. fix IHl 1. intros [|[k x] l]; constructor.
        * split; apply IHv.
        * apply IHl.
    - intros m. destruct m as [|known]; [exact Hnil|].
      apply Hdyn. revert known. fix IHl 1. intros [|[fd [x|]] l]; constructor.
      + simpl. intros v [= <-]. apply IHv.
      + apply IHl.
      + simpl. intros v [=].
      + apply IHl. }
  split; [exact HV|].
  intros m. destruct m as [|known]; [exact Hnil|].
  apply Hdyn. induction known as [|[fd [x|]] l IH]; constructor; auto.
Qed.

(** *** The cache does not change what a call returns *)

Lemma cache_ok_empty : cache_ok ∅.
Proof. intros expr exp H. rewrite lookup_empty in H. discriminate. Qed.

Lemma cache_ok_reset r : cache_ok (reset r).
Proof. exact cache_ok_empty. Qed.

Lemma Get_cache_ok expr r :
  cache_ok r ->
  cache_ok (snd (Get expr r)) /\ fst (Get expr r) = regexp_Compile expr.
Proof.
  intros Hok. unfold Get.
  destruct (r !! expr) as [exp|] eqn:Hr; simpl.
  - split; [exact Hok|]. symmetry. exact (Hok _ _ Hr).
  - destruct (regexp_Compile expr) as [exp|] eqn:Hc; simpl.
    + split; [|reflexivity]. intros expr' exp' H.
      destruct (decide (expr = expr')) as [<-|Hne].
      * rewrite lookup_insert_eq in H. congruence.
      * rewrite lookup_insert_ne in H by exact Hne. exact (Hok _ _ H).
    + split; [exact Hok|reflexivity].
Qed.

Lemma checkString_stable field value rule r :
  cache_ok r ->
  cache_ok (snd (checkString field value rule r)) /\
  fst (checkString field value rule r) = fst (checkString field value rule ∅).
Proof.
  intros Hok. unfold checkString, check.
  destruct rule as [rule|]; [|auto].
  repeat match goal with
  | |- context [match ?o with Some _ => _ | None => _ end] =>
      lazymatch o with
      | Regex _ => fail
      | _ => destruct o
      end
  | |- context [if ?b then _ else _] =>
      lazymatch b with
      | negb (MatchString _ _) => fail
      | _ => destruct b
      end
  end; auto;
  (destruct (Regex rule) as [expr|]; [|auto];
   destruct (Get_cache_ok expr r Hok) as [Hok' Hfst];
   destruct (Get_cache_ok expr ∅ cache_ok_empty) as [_ Hfst0];
   destruct (Get expr r) as [o r1]; destruct (Get expr ∅) as [o0 r0];
   simpl in *; subst o o0;
   destruct (regexp_Compile expr) as [exp|]; [|auto];
   destruct (negb (MatchString exp value)); auto).
Qed.

Lemma stable_ret err : stable (ret err).
Proof. intros r Hok. auto. Qed.

Lemma stable_panic : stable panic.
Proof. intros r Hok. auto. Qed.

Lemma stable_and_then m k : stable m -> stable k -> stable (and_then m k).
Proof.
  intros Hm Hk r Hok. unfold and_then.
  destruct (Hm r Hok) as [Hok1 Hfst].
  destruct (Hm ∅ cache_ok_empty) as [Hok0 _].
  destruct (m r) as [res r1], (m ∅) as [res0 r0]. simpl in *. subst res0.
  destruct res as [[e|]|]; auto.
  destruct (Hk r1 Hok1) as [Hok2 Hfst2]. destruct (Hk r0 Hok0) as [_ Hfst0].
  split; [exact Hok2|]. congruence.
Qed.

Lemma stable_recover m : stable m -> stable (recover m).
Proof.
  intros Hm r Hok. unfold recover.
  destruct (Hm r Hok) as [Hok1 Hfst].
  destruct (m r) as [res r1], (m ∅) as [res0 r0]. simpl in *. subst res0.
  destruct res as [err|]; auto.
Qed.

Lemma stable_for_range {A} (body : A -> M) l :
  Forall (fun x => stable (body x)) l -> stable (for_range body l).
Proof.
  induction 1 as [|x l Hx _ IH]; simpl.
  - apply stable_ret.
  - apply stable_and_then; assumption.
Qed.

Lemma stable_checkString field value rule :
  stable (fun r => let (err, r') := checkString field value rule r in (Return err, r')).
Proof.
  intros r Hok. destruct (checkString_stable field value rule r Hok) as [H1 H2].
  destruct (checkString field value rule r) as [err r1].
  destruct (checkString field value rule ∅) as [err0 r0].
  simpl in *. split; [assumption | congruence].
Qed.

Lemma stable_validFieldP field value rule :
  (forall field, stable (validField field value rule)) ->
  stable (validFieldP ValidMsg field value rule).
Proof.
  intros H. destruct field as [field|]; simpl; [apply H|].
  destruct value; first [apply stable_ret | apply stable_panic].
Qed.

Lemma stable_validField_leaf value field rule :
  leaf value -> stable (validField field value rule).
Proof.
  intros Hleaf. unfold validField, validFieldF.
  destruct value; try contradiction; try apply stable_ret;
    destruct (GetType field);
    first [apply stable_ret | apply stable_panic | apply stable_checkString].
Qed.

Lemma stable_value_ValidMsg :
  (forall value, stable_value value) /\ (forall msg, stable (ValidMsg msg)).
Proof.
  apply Value_Message_ind.
  - intros v Hleaf field rule. split; [by apply stable_validField_leaf|].
    split; destruct v; try contradiction; exact (stable_ret None).
  - intros m IH field rule. split; [|split]; try exact (stable_ret None).
    unfold validField, validFieldF.
    destruct (GetType field);
      first [apply stable_ret | apply stable_panic | exact IH].
  - intros l IH field rule. split; [|split]; try exact (stable_ret None).
    + unfold validField, validFieldF.
      destruct (GetType field); first [apply stable_ret | apply stable_panic].
    + unfold validRepeated, validRepeatedF.
      apply stable_and_then; [apply stable_ret|].
      apply stable_for_range. eapply Forall_impl; [exact IH|].
      intros item Hitem. apply Hitem.
  - intros l IH field rule. split; [|split]; try exact (stable_ret None).
    + unfold validField, validFieldF.
      destruct (GetType field); first [apply stable_ret | apply stable_panic].
    + unfold validMap, validMapF.
      apply stable_for_range. eapply Forall_impl; [exact IH|].
      intros [k x] [Hk Hx]. simpl in *.
      apply stable_and_then; apply stable_validFieldP; intros f.
      * apply Hk.
      * apply Hx.
  - rewrite ValidMsg_unfold. apply stable_recover, stable_ret.
  - intros known IH. rewrite ValidMsg_unfold. apply stable_recover.
    unfold Valid, ValidF. apply stable_for_range.
    eapply Forall_impl; [exact IH|]. clear IH.
    intros [fd got] IH. unfold validKnownF. simpl in *.
    destruct (IsExtension fd); [apply stable_ret|].
    destruct got as [value|]; [|apply stable_ret].
    specialize (IH value eq_refl (fd) (getRule fd)).
    destruct IH as (IH1 & IH2 & IH3).
    destruct (IsMap fd); [|destruct (IsRepeated fd)]; assumption.
Qed.

Lemma ValidMsg_stable msg : stable (ValidMsg msg).
Proof. apply stable_value_ValidMsg. Qed.

Lemma validField_stable field value rule : stable (validField field value rule).
Proof. apply stable_value_ValidMsg. Qed.

Lemma validMap_stable field value rule : stable (validMap field value rule).
Proof. apply stable_value_ValidMsg. Qed.

Lemma validRepeated_stable field value rule :
  stable (validRepeated field value rule).
Proof. apply stable_value_ValidMsg. Qed.

(** *** The traversal *)

Lemma checked_kind_false t :
  checked_kind t = false <-> t = TYPE_BOOL \/ t = TYPE_GROUP.
Proof. destruct t; simpl; intuition discriminate. Qed.

(** C10. A field whose declared kind has no case in [validField] (a
    bool or a group field) is valid whatever its value and whatever the
    rule attached to it; the cache is not touched. *)
Theorem C10_unhandled_kind_is_valid field value rule r :
  checked_kind (GetType field) = false ->
  validField field value rule r = (Return None, r).
Proof.
  unfold validField, validFieldF. intros H.
  destruct (GetType field); try discriminate H; destruct value; reflexivity.
Qed.

Lemma validKnown_singular field value r :
  IsExtension field = false -> IsMap field = false -> IsRepeated field = false ->
  validKnown (field, Some value) r = validField field value (getRule field) r.
Proof.
  intros He Hm Hr. unfold validKnown, validKnownF. simpl.
  rewrite He, Hm, Hr. reflexivity.
Qed.

Lemma validKnown_repeated field value r :
  IsExtension field = false -> IsMap field = false -> IsRepeated field = true ->
  validKnown (field, Some value) r = validRepeated field value (getRule field) r.
Proof.
  intros He Hm Hr. unfold validKnown, validKnownF. simpl.
  rewrite He, Hm, Hr. reflexivity.
Qed.

Lemma validKnown_map field value r :
  IsExtension field = false -> IsMap field = true ->
  validKnown (field, Some value) r = validMap field value (getRule field) r.
Proof.
  intros He Hm. unfold validKnown, validKnownF. simpl.
  rewrite He, Hm. reflexivity.
Qed.

Lemma Valid_DynMessage known : Valid (DynMessage known) = for_range validKnown known.
Proof. reflexivity. Qed.

(** [ValidMsg] returns the first violation met in the order of the
    known fields. *)
Lemma ValidMsg_first_error pre slot post r r1 e r2 :
  all_pass validKnown pre r r1 ->
  validKnown slot r1 = (Return (Some e), r2) ->
  ValidMsg (DynMessage (pre ++ slot :: post)) r = (Return (Some e), r2).
Proof.
  intros Hpre Hslot. rewrite ValidMsg_unfold. apply recover_return.
  rewrite Valid_DynMessage. eapply for_range_first; [|exact Hslot|discriminate].
  by apply for_range_all_pass.
Qed.

(** C7. On a message-typed field [validField] is [ValidMsg] on the
    nested message, whatever the rule of the field; a violation found
    in the nested message is what the enclosing [ValidMsg] returns,
    unchanged, once the known fields before it have passed. *)
Theorem C7_message_field_recurses field subMsg :
  GetType field = TYPE_MESSAGE ->
  (forall rule r, validField field (VMessage subMsg) rule r = ValidMsg subMsg r) /\
  (forall pre post r r1 e r2,
     IsExtension field = false -> IsMap field = false ->
     IsRepeated field = false ->
     all_pass validKnown pre r r1 ->
     ValidMsg subMsg r1 = (Return (Some e), r2) ->
     ValidMsg (DynMessage (pre ++ (field, Some (VMessage subMsg)) :: post)) r
     = (Return (Some e), r2)).
Proof.
  intros Ht.
  assert (Hrec : forall rule r,
             validField field (VMessage subMsg) rule r = ValidMsg subMsg r).
  { intros rule r. unfold validField, validFieldF. rewrite Ht. reflexivity. }
  split; [exact Hrec|].
  intros pre post r r1 e r2 He Hm Hr Hpre Hsub.
  eapply ValidMsg_first_error; [exact Hpre|].
  rewrite validKnown_singular by assumption. rewrite Hrec. exact Hsub.
Qed.

(** C4. On a repeated field with a rule the count is compared with
    RepeatedCountMin and then RepeatedCountMax, both inclusive, before
    any element is looked at: a count out of bounds is returned at once
    as an error on the field itself, whatever the elements are and with
    the cache untouched. With both bounds met the elements are checked
    against the same rule in list order: the first one that does not
    pass decides the result, and nil is returned when all pass. *)
Theorem C4_repeated_count_then_elements field vList rule r :
  let n := Z.of_nat (length vList) in
  let elem := fun item => validField field item (Some rule) in
  let min_ok := forall min, RepeatedCountMin rule = Some min -> min <= n in
  let max_ok := forall max, RepeatedCountMax rule = Some max -> n <= max in
  (forall min, RepeatedCountMin rule = Some min -> n < min ->
     validRepeated field (VList vList) (Some rule) r
     = (Return (Some (ValidFail field "RepeatedCountMin" (VInt64 min) (VInt64 n))), r)) /\
  (forall max, min_ok -> RepeatedCountMax rule = Some max -> max < n ->
     validRepeated field (VList vList) (Some rule) r
     = (Return (Some (ValidFail field "RepeatedCountMax" (VInt64 max) (VInt64 n))), r)) /\
  (forall pre item post r1 res r2,
     min_ok -> max_ok -> vList = pre ++ item :: post ->
     all_pass elem pre r r1 -> elem item r1 = (res, r2) -> res <> Return None ->
     validRepeated field (VList vList) (Some rule) r = (res, r2)) /\
  (forall r',
     min_ok -> max_ok -> all_pass elem vList r r' ->
     validRepeated field (VList vList) (Some rule) r = (Return None, r')).
Proof.
  intros n elem min_ok max_ok.
  assert (Hbounds : min_ok -> max_ok ->
            validRepeated field (VList vList) (Some rule) r = for_range elem vList r).
  { intros Hmin Hmax. unfold validRepeated, validRepeatedF, checkRepeated, check.
    fold n. unfold and_then, ret.
    destruct (RepeatedCountMin rule) as [min|] eqn:Emin.
    - specialize (Hmin min eq_refl).
      destruct (n >=? min) eqn:E; [|lia]. simpl.
      destruct (RepeatedCountMax rule) as [max|] eqn:Emax; [|reflexivity].
      specialize (Hmax max eq_refl). destruct (n <=? max) eqn:E'; [|lia].
      reflexivity.
    - destruct (RepeatedCountMax rule) as [max|] eqn:Emax; [|reflexivity].
      specialize (Hmax max eq_refl). destruct (n <=? max) eqn:E'; [|lia].
      reflexivity. }
  repeat apply conj.
  - intros min Emin Hlt. unfold validRepeated, validRepeatedF, checkRepeated, check.
    fold n. rewrite Emin. destruct (n >=? min) eqn:E; [lia|]. reflexivity.
  - intros max Hmin Emax Hlt.
    unfold validRepeated, validRepeatedF, checkRepeated, check. fold n.
    destruct (RepeatedCountMin rule) as [min|] eqn:Emin.
    + specialize (Hmin min eq_refl). destruct (n >=? min) eqn:E; [|lia]. simpl.
      rewrite Emax. destruct (n <=? max) eqn:E'; [lia|]. reflexivity.
    + rewrite Emax. destruct (n <=? max) eqn:E'; [lia|]. reflexivity.
  - intros pre item post r1 res r2 Hmin Hmax -> Hpre Hitem Hne.
    rewrite (Hbounds Hmin Hmax). eapply for_range_first; eauto.
    by apply for_range_all_pass.
  - intros r' Hmin Hmax Hall. rewrite (Hbounds Hmin Hmax).
    by apply for_range_all_pass.
Qed.

Lemma ValidMsg_no_panic msg r : fst (ValidMsg msg r) <> Panic.
Proof. rewrite ValidMsg_unfold. apply recover_no_panic. Qed.

(** [validField] panics exactly on a value of the wrong Go type. *)
Lemma validField_panic_iff field value rule r :
  fst (validField field value rule r) = Panic <->
  shape_ok (GetType field) value = false.
Proof.
  unfold validField, validFieldF, shape_ok, checkMessageF.
  destruct value; try (simpl; intuition discriminate);
    destruct (GetType field); simpl;
    try (intuition discriminate);
    try (split; [intros H; exfalso; revert H; apply ValidMsg_no_panic
                |discriminate]).
  all: destruct (checkString _ _ _ _); simpl; intuition discriminate.
Qed.

Lemma validField_nil_rule_scalar field value r e r' :
  validField field value None r = (Return (Some e), r') ->
  GetType field = TYPE_MESSAGE /\
  exists subMsg, value = VMessage subMsg /\
                 ValidMsg subMsg r = (Return (Some e), r').
Proof.
  unfold validField, validFieldF, checkMessageF, ret, panic.
  destruct value; try discriminate;
    destruct (GetType field); simpl; try discriminate.
  intros H. split; [reflexivity|]. eauto.
Qed.

Lemma validMap_entries field keyType valueType entries rule :
  GetMapKeyType field = Some keyType ->
  GetMapValueType field = Some valueType ->
  validMap field (VMap entries) rule
  = for_range (validEntry keyType valueType rule) entries.
Proof.
  intros Hk Hv. unfold validMap, validMapF. rewrite Hk, Hv. reflexivity.
Qed.

(** C5. On a map field the rule of the field is applied to the key of
    each entry, under the key's descriptor, and the value is checked
    under the value's descriptor with no rule: a value gives a
    violation only as a nested message that has one. Keys and values of
    message kind recurse through [ValidMsg]. The entries are taken in
    iteration order; the first violation, of a key or inside a value,
    is returned, and the map passes when every key passes the rule and
    every value passes with no rule. *)
Theorem C5_map_rule_on_keys_only field keyType valueType entries rule r :
  GetMapKeyType field = Some keyType ->
  GetMapValueType field = Some valueType ->
  (forall item r0 e r',
     validField valueType item None r0 = (Return (Some e), r') ->
     GetType valueType = TYPE_MESSAGE /\
     exists subMsg, item = VMessage subMsg /\
                    ValidMsg subMsg r0 = (Return (Some e), r')) /\
  (forall subMsg r0,
     (GetType keyType = TYPE_MESSAGE ->
      validField keyType (VMessage subMsg) rule r0 = ValidMsg subMsg r0) /\
     (GetType valueType = TYPE_MESSAGE ->
      validField valueType (VMessage subMsg) None r0 = ValidMsg subMsg r0)) /\
  (forall pre key item post r1 e r2,
     entries = pre ++ (key, item) :: post ->
     all_pass (validEntry keyType valueType rule) pre r r1 ->
     validField keyType key rule r1 = (Return (Some e), r2) ->
     validMap field (VMap entries) rule r = (Return (Some e), r2)) /\
  (forall pre key item post r1 r2 e r3,
     entries = pre ++ (key, item) :: post ->
     all_pass (validEntry keyType valueType rule) pre r r1 ->
     validField keyType key rule r1 = (Return None, r2) ->
     validField valueType item None r2 = (Return (Some e), r3) ->
     validMap field (VMap entries) rule r = (Return (Some e), r3)) /\
  (forall r',
     all_pass (validEntry keyType valueType rule) entries r r' ->
     validMap field (VMap entries) rule r = (Return None, r')) /\
  (forall e r',
     validMap field (VMap entries) rule r = (Return (Some e), r') ->
     exists pre key item post r1,
       entries = pre ++ (key, item) :: post /\
       all_pass (validEntry keyType valueType rule) pre r r1 /\
       (validField keyType key rule r1 = (Return (Some e), r') \/
        exists r2, validField keyType key rule r1 = (Return None, r2) /\
                   validField valueType item None r2 = (Return (Some e), r'))).
Proof.
  intros Hk Hv. rewrite (validMap_entries _ _ _ _ _ Hk Hv).
  repeat apply conj.
  - intros item r0 e r'. apply validField_nil_rule_scalar.
  - intros subMsg r0. split; intros Ht;
      unfold validField, validFieldF; rewrite Ht; reflexivity.
  - intros pre key item post r1 e r2 -> Hpre Hkey.
    eapply for_range_first; [by apply for_range_all_pass| |discriminate].
    unfold validEntry. simpl. eapply and_then_stop; [exact Hkey|discriminate].
  - intros pre key item post r1 r2 e r3 -> Hpre Hkey Hitem.
    eapply for_range_first; [by apply for_range_all_pass| |discriminate].
    unfold validEntry. simpl. rewrite (and_then_pass _ _ _ _ Hkey). exact Hitem.
  - intros r' Hall. by apply for_range_all_pass.
  - intros e r' H.
    destruct (for_range_error_inv _ _ _ _ _ H)
      as (pre & [key item] & post & r1 & -> & Hpre & Hentry).
    exists pre, key, item, post, r1. split; [reflexivity|].
    split; [by apply for_range_all_pass|].
    exact (and_then_error_inv _ _ _ _ _ Hentry).
Qed.

Lemma Get_compile_error expr r :
  cache_ok r -> regexp_Compile expr = None -> Get expr r = (None, r).
Proof.
  intros Hok Hc. unfold Get.
  destruct (r !! expr) as [exp|] eqn:Hr.
  - rewrite (Hok _ _ Hr) in Hc. discriminate.
  - rewrite Hc. reflexivity.
Qed.

Lemma checkString_compile_error field value rule expr r :
  Regex rule = Some expr -> regexp_Compile expr = None -> cache_ok r ->
  checkString field value (Some rule) r
  = checkString field value (Some (without_regex rule)) r.
Proof.
  intros Hre Hc Hok. unfold checkString, check. simpl.
  rewrite Hre, (Get_compile_error _ _ Hok Hc). reflexivity.
Qed.

Lemma checkString_no_regex_cache field value rule r :
  Regex rule = None -> snd (checkString field value (Some rule) r) = r.
Proof.
  intros Hre. unfold checkString, check. rewrite Hre.
  repeat match goal with
  | |- context [match ?o with Some _ => _ | None => _ end] => destruct o
  | |- context [if ?b then _ else _] => destruct b
  end; reflexivity.
Qed.

Lemma checkString_no_regex_key field value rule r e :
  Regex rule = None ->
  fst (checkString field value (Some rule) r) = Some e -> validKey e <> "Regex".
Proof.
  intros Hre. unfold checkString, check. rewrite Hre.
  repeat match goal with
  | |- context [match ?o with Some _ => _ | None => _ end] => destruct o
  | |- context [if ?b then _ else _] => destruct b
  end; simpl; intros [= <-]; discriminate.
Qed.

(** C8. When the pattern of a rule does not compile, a string field is
    checked exactly as under the same rule with no pattern: the other
    constraints decide, no violation names the regex, the call does not
    panic and nothing is stored in the cache. *)
Theorem C8_regex_compile_failure field value rule expr r :
  GetType field = TYPE_STRING ->
  Regex rule = Some expr -> regexp_Compile expr = None -> cache_ok r ->
  validField field (VString value) (Some rule) r
  = validField field (VString value) (Some (without_regex rule)) r /\
  snd (validField field (VString value) (Some rule) r) = r /\
  fst (validField field (VString value) (Some rule) r) <> Panic /\
  (forall e, fst (validField field (VString value) (Some rule) r) = Return (Some e) ->
             validKey e <> "Regex").
Proof.
  intros Ht Hre Hc Hok. unfold validField, validFieldF. rewrite Ht.
  rewrite (checkString_compile_error _ _ _ _ _ Hre Hc Hok).
  pose proof (checkString_no_regex_cache field value (without_regex rule) r eq_refl) as Hsnd.
  pose proof (checkString_no_regex_key field value (without_regex rule) r) as Hkey.
  destruct (checkString field value (Some (without_regex rule)) r) as [err r'].
  simpl in *. repeat apply conj; try done.
  intros e [= ->]. by apply Hkey.
Qed.

(** C1. A panic raised while a known field is checked is recovered by
    the [ValidMsg] call of the message that holds the field: [ValidMsg]
    never panics; it returns nil for that message as a whole, whatever
    the fields after the faulting one hold; [validField] panics exactly
    on a value whose Go type is not the one asserted for the declared
    kind, while a value that is not a list, not a map or not a message
    where one is expected is passed over at that field alone. *)
Theorem C1_panic_recovered_per_message :
  (forall msg r, fst (ValidMsg msg r) <> Panic) /\
  (forall pre slot post r r1 r2,
     all_pass validKnown pre r r1 ->
     validKnown slot r1 = (Panic, r2) ->
     ValidMsg (DynMessage (pre ++ slot :: post)) r = (Return None, r2)) /\
  (forall field value rule r,
     fst (validField field value rule r) = Panic <->
     shape_ok (GetType field) value = false) /\
  (forall field value rule r,
     (forall vList, value <> VList vList) ->
     validRepeated field value rule r = (Return None, r)) /\
  (forall field value rule r,
     (forall vList, value <> VMap vList) ->
     validMap field value rule r = (Return None, r)) /\
  (forall field value rule r,
     GetType field = TYPE_MESSAGE ->
     (forall subMsg, value <> VMessage subMsg) ->
     validField field value rule r = (Return None, r)).
Proof.
  repeat apply conj.
  - exact ValidMsg_no_panic.
  - intros pre slot post r r1 r2 Hpre Hslot.
    rewrite ValidMsg_unfold. apply recover_panic. rewrite Valid_DynMessage.
    eapply for_range_first; [by apply for_range_all_pass|exact Hslot|discriminate].
  - exact validField_panic_iff.
  - intros field value rule r H. unfold validRepeated, validRepeatedF.
    destruct value; try reflexivity. by destruct (H l).
  - intros field value rule r H. unfold validMap, validMapF.
    destruct value; try reflexivity. by destruct (H l).
  - intros field value rule r Ht H. unfold validField, validFieldF. rewrite Ht.
    destruct value; try reflexivity. by destruct (H m).
Qed.

(** *** Integers *)

Lemma int64_in_range n : in_int64 n -> int64 n = n.
Proof.
  unfold in_int64, int64. intros H.
  rewrite Z.mod_small by lia. lia.
Qed.

Lemma int64_wraps n : 2 ^ 63 <= n < 2 ^ 64 -> int64 n = n - 2 ^ 64.
Proof.
  unfold int64. intros H.
  replace (n + 2 ^ 63) with ((n - 2 ^ 63) + 1 * 2 ^ 64) by lia.
  rewrite Z.mod_add by lia. rewrite Z.mod_small by lia. lia.
Qed.

Lemma checkInt_fails_iff field value rule :
  checkInt field value (Some rule) <> None <-> int_fails value rule.
Proof.
  unfold checkInt, check, int_fails.
  destruct (IntGt rule) as [gt|], (IntLt rule) as [lt|];
    repeat match goal with
    | |- context [if negb ?b then _ else _] => destruct b eqn:?; simpl
    end; split;
    try congruence;
    try (intros _; first [left; eexists; split; [reflexivity|lia]
                         |right; eexists; split; [reflexivity|lia]]);
    intros [(x & [= <-] & H)|(x & [= <-] & H)]; lia.
Qed.

(** On every integer field whose value fits in an int64, that is on
    all of them but a uint64 at or above 2^63, [validField] fails
    exactly when the specification says. *)
Lemma validField_int_fails_iff field value n rule r :
  int_typed (GetType field) value n -> in_int64 n ->
  (exists e, validField field value (Some rule) r = (Return (Some e), r)) <->
  int_fails n rule.
Proof.
  intros Ht Hn. rewrite <- (checkInt_fails_iff field n rule).
  assert (validField field value (Some rule) r
          = (Return (checkInt field n (Some rule)), r)) as ->.
  { unfold validField, validFieldF, int_typed in *.
    destruct (GetType field); try contradiction; destruct Ht as [-> Hr];
      unfold ret; rewrite ?(int64_in_range n Hn); reflexivity. }
  destruct (checkInt field n (Some rule)) as [e|].
  - split; [congruence|eauto].
  - split; [intros [e [=]]|congruence].
Qed.

(** A uint64 at or above 2^63 is rejected by every int-gt that is not
    negative, with the wrapped number in the error. *)
Lemma validField_uint64_high field n rule gt r :
  GetType field = TYPE_UINT64 \/ GetType field = TYPE_FIXED64 ->
  2 ^ 63 <= n < 2 ^ 64 -> IntGt rule = Some gt -> 0 <= gt ->
  validField field (VUint64 n) (Some rule) r
  = (Return (Some (ValidFail field "IntGt" (VInt64 gt) (VInt64 (n - 2 ^ 64)))), r).
Proof.
  intros Ht Hn Hgt Hpos. unfold validField, validFieldF.
  assert (ret (checkInt field (int64 n) (Some rule)) r
          = (Return (Some (ValidFail field "IntGt" (VInt64 gt) (VInt64 (n - 2 ^ 64)))), r))
    as Hc.
  { rewrite (int64_wraps n Hn). unfold checkInt, check, ret. rewrite Hgt.
    destruct (n - 2 ^ 64 >? gt) eqn:E; [lia|]. reflexivity. }
  destruct Ht as [-> | ->]; exact Hc.
Qed.

(** C2. A uint64 field that holds 2^63 under the rule int-gt = 0 is
    rejected: the value is compared as the int64 -2^63, and the error
    reports that number. Yet 2^63 is above 0 and no int-lt is set, so
    the field does not fail by the specification. *)
Theorem C2_uint64_compared_as_negative r :
  in_uint64 (2 ^ 63) /\
  validField f_id (VUint64 (2 ^ 63)) (getRule f_id) r
  = (Return (Some (ValidFail f_id "IntGt" (VInt64 0) (VInt64 (- 2 ^ 63)))), r) /\
  ~ int_fails (2 ^ 63) (rule_int (Some 0) None).
Proof.
  split; [unfold in_uint64; lia|]. split; [reflexivity|].
  intros [(gt & [= <-] & H)|(lt & [=] & _)]. lia.
Qed.

(** *** Floating point *)

Lemma SFcompare_antisym a b :
  SFcompare b a = option_map CompOpp (SFcompare a b).
Proof.
  destruct a as [sa|sa| |sa ma ea], b as [sb|sb| |sb mb eb]; simpl;
    try (destruct sa); try (destruct sb); try reflexivity;
    rewrite (Z.compare_antisym ea eb); destruct (ea ?= eb); simpl;
    try reflexivity; change (Pos.compare_cont Eq) with Pos.compare;
    rewrite (Pos.compare_antisym ma mb);
    try rewrite CompOpp_involutive; reflexivity.
Qed.

Lemma is_nan_false_SF x : is_nan x = false -> Prim2SF x <> S754_nan.
Proof.
  unfold is_nan. rewrite FloatAxioms.eqb_spec. unfold SFeqb. intros H E.
  rewrite E in H. discriminate.
Qed.

Lemma SFcompare_Some a b :
  a <> S754_nan -> b <> S754_nan -> exists c, SFcompare a b = Some c.
Proof.
  destruct a as [sa|sa| |sa ma ea], b as [sb|sb| |sb mb eb]; simpl;
    intros Ha Hb; try congruence; eauto.
Qed.

(** Away from NaN, [not (x > y)] is [x <= y] and [not (x >= y)] is
    [x < y]. *)
Lemma not_ltb_iff_leb x y :
  is_nan x = false -> is_nan y = false ->
  ((y <? x)%float = false <-> (x <=? y)%float = true).
Proof.
  intros Hx Hy. rewrite FloatAxioms.ltb_spec, FloatAxioms.leb_spec.
  unfold SFltb, SFleb.
  rewrite (SFcompare_antisym (Prim2SF x) (Prim2SF y)).
  destruct (SFcompare_Some _ _ (is_nan_false_SF _ Hx) (is_nan_false_SF _ Hy))
    as [c ->].
  destruct c; simpl; intuition discriminate.
Qed.

Lemma not_leb_iff_ltb x y :
  is_nan x = false -> is_nan y = false ->
  ((y <=? x)%float = false <-> (x <? y)%float = true).
Proof.
  intros Hx Hy. rewrite FloatAxioms.ltb_spec, FloatAxioms.leb_spec.
  unfold SFltb, SFleb.
  rewrite (SFcompare_antisym (Prim2SF x) (Prim2SF y)).
  destruct (SFcompare_Some _ _ (is_nan_false_SF _ Hx) (is_nan_false_SF _ Hy))
    as [c ->].
  destruct c; simpl; intuition discriminate.
Qed.

(** Adding or subtracting the float 0 changes no comparison: with no
    float-epsilon the code compares the value itself. *)
Lemma SFcompare_add_zero a b :
  SFcompare (SF64add a (S754_zero false)) b = SFcompare a b /\
  SFcompare b (SF64add a (S754_zero false)) = SFcompare b a /\
  SFcompare (SF64sub a (S754_zero false)) b = SFcompare a b /\
  SFcompare b (SF64sub a (S754_zero false)) = SFcompare b a.
Proof.
  destruct a as [sa|sa| |sa ma ea]; try (repeat split; reflexivity);
    destruct sa; destruct b as [sb|sb| |sb mb eb]; repeat split; reflexivity.
Qed.

Lemma compare_zero_eps x y :
  ((x + 0 <? y) = (x <? y) /\ (y <? x + 0) = (y <? x) /\
   (x + 0 <=? y) = (x <=? y) /\ (y <=? x + 0) = (y <=? x) /\
   (x - 0 <? y) = (x <? y) /\ (y <? x - 0) = (y <? x) /\
   (x - 0 <=? y) = (x <=? y) /\ (y <=? x - 0) = (y <=? x))%float.
Proof.
  rewrite !FloatAxioms.ltb_spec, !FloatAxioms.leb_spec, add_spec, sub_spec.
  change (Prim2SF 0) with (S754_zero false). unfold SFltb, SFleb.
  destruct (SFcompare_add_zero (Prim2SF x) (Prim2SF y)) as (-> & -> & -> & ->).
  repeat split; reflexivity.
Qed.

Lemma set_bound_iff {A} (o : option A) (P Q : A -> Prop) :
  (forall t, o = Some t -> (P t <-> Q t)) ->
  ((exists t, o = Some t /\ P t) <-> (exists t, o = Some t /\ Q t)).
Proof.
  intros H. split; intros (t & Ht & HP); exists t; split; auto; by apply (H t Ht).
Qed.

Lemma widened_compare value rule y :
  ((y <? valueMax value rule) = (y <? value + epsilon rule) /\
   (y <=? valueMax value rule) = (y <=? value + epsilon rule) /\
   (valueMin value rule <? y) = (value - epsilon rule <? y) /\
   (valueMin value rule <=? y) = (value - epsilon rule <=? y))%float.
Proof.
  unfold valueMax, valueMin, epsilon.
  destruct (FloatEpsilon rule); [repeat split; reflexivity|].
  pose proof (compare_zero_eps value y). intuition congruence.
Qed.

Lemma checkFloat_fails_iff field value rule :
  checkFloat field value (Some rule) <> None <-> float_bound_broken value rule.
Proof.
  unfold checkFloat, check, float_bound_broken.
  destruct (FloatGt rule) as [gt|], (FloatLt rule) as [lt|],
           (FloatGte rule) as [gte|], (FloatLte rule) as [lte|];
    repeat match goal with
    | |- context [negb (?y <? valueMax _ _)%float] =>
        destruct (widened_compare value rule y) as (-> & _ & _ & _)
    | |- context [negb (?y <=? valueMax _ _)%float] =>
        destruct (widened_compare value rule y) as (_ & -> & _ & _)
    | |- context [negb (valueMin _ _ <? ?y)%float] =>
        destruct (widened_compare value rule y) as (_ & _ & -> & _)
    | |- context [negb (valueMin _ _ <=? ?y)%float] =>
        destruct (widened_compare value rule y) as (_ & _ & _ & ->)
    end;
    repeat match goal with
    | |- context [if negb ?b then _ else _] => destruct b eqn:?; simpl
    end;
    (split;
     [ try congruence; intros _; eauto 10
     | try congruence;
       intros [H|[H|[H|H]]]; destruct H as (x & Hx & H); congruence ]).
Qed.

(** C6. On a singular float or double field with a rule, with e the
    float-epsilon (0 if unset), [validField] fails iff float-gt is set
    and value+e > float-gt does not hold, or float-lt is set and
    value-e < float-lt does not hold, or float-gte is set and
    value+e >= float-gte does not hold, or float-lte is set and
    value-e <= float-lte does not hold. When no operand is a NaN these
    are the conditions value+e <= float-gt, value-e >= float-lt,
    value+e < float-gte and value-e > float-lte. *)
Theorem C6_float_bounds field v value rule r :
  (GetType field = TYPE_DOUBLE /\ v = VFloat64 value) \/
  (GetType field = TYPE_FLOAT /\ v = VFloat32 value) ->
  ((exists e, validField field v (Some rule) r = (Return (Some e), r)) <->
   float_bound_broken value rule) /\
  (float_ordered value rule ->
   (float_bound_broken value rule <-> float_fails value rule)).
Proof.
  intros Hv. split.
  - rewrite <- (checkFloat_fails_iff field value rule).
    assert (validField field v (Some rule) r
            = (Return (checkFloat field value (Some rule)), r)) as ->.
    { unfold validField, validFieldF.
      destruct Hv as [[-> ->]|[-> ->]]; reflexivity. }
    destruct (checkFloat field value (Some rule)) as [e|].
    + split; [congruence|eauto].
    + split; [intros [e [=]]|congruence].
  - intros (Hmax & Hmin & Hgt & Hlt & Hgte & Hlte).
    unfold float_bound_broken, float_fails. cbv zeta.
    pose proof (set_bound_iff (FloatGt rule) _ _
      (fun gt H => not_ltb_iff_leb (value + epsilon rule) gt Hmax (Hgt gt H))).
    pose proof (set_bound_iff (FloatLt rule) _ _
      (fun lt H => not_ltb_iff_leb lt (value - epsilon rule) (Hlt lt H) Hmin)).
    pose proof (set_bound_iff (FloatGte rule) _ _
      (fun gte H => not_leb_iff_ltb (value + epsilon rule) gte Hmax (Hgte gte H))).
    pose proof (set_bound_iff (FloatLte rule) _ _
      (fun lte H => not_leb_iff_ltb lte (value - epsilon rule) (Hlte lte H) Hmin)).
    tauto.
Qed.

(** *** Determinism *)

Lemma for_range_run {A} (body : A -> M) l r :
  Forall (fun x => stable (body x)) l -> cache_ok r ->
  fst (for_range body l r) = first_stop (map (fun x => run (body x)) l).
Proof.
  intros Hst. revert r. induction Hst as [|x l Hx _ IH]; intros r Hok; simpl.
  - reflexivity.
  - unfold and_then, run. destruct (Hx r Hok) as [Hok1 Hfst].
    destruct (body x r) as [res r1]. simpl in *. rewrite <- Hfst.
    destruct res as [[e|]|]; try reflexivity. by apply IH.
Qed.

Lemma first_stop_pass_iff l :
  first_stop l = Return None <-> Forall (fun res => res = Return None) l.
Proof.
  induction l as [|res l IH]; simpl.
  - split; [constructor|reflexivity].
  - destruct res as [[e|]|].
    + split; [discriminate|]. inversion 1; discriminate.
    + rewrite IH. split; [by constructor|]. by inversion 1.
    + split; [discriminate|]. inversion 1; discriminate.
Qed.

Lemma first_stop_elem l :
  first_stop l = Return None \/ first_stop l ∈ l.
Proof.
  induction l as [|res l IH]; simpl; [by left|].
  destruct res as [[e|]|]; try (right; by constructor).
  destruct IH as [IH|IH]; [by left|right; by constructor].
Qed.

Lemma first_stop_error_iff l :
  Panic ∉ l ->
  (exists e, first_stop l = Return (Some e)) <->
  ~ Forall (fun res => res = Return None) l.
Proof.
  intros Hp. rewrite <- first_stop_pass_iff.
  destruct (first_stop_elem l) as [H|H].
  - rewrite H. split; [intros [e [=]]|congruence].
  - destruct (first_stop l) as [[e|]|] eqn:E.
    + split; [discriminate|eauto].
    + split; [intros [e [=]]|congruence].
    + contradiction.
Qed.

Lemma validMap_run field keyType valueType entries rule r :
  GetMapKeyType field = Some keyType ->
  GetMapValueType field = Some valueType ->
  cache_ok r ->
  fst (validMap field (VMap entries) rule r)
  = first_stop (map (fun entry => run (validEntry keyType valueType rule entry))
                    entries).
Proof.
  intros Hk Hv Hok. rewrite (validMap_entries _ _ _ _ _ Hk Hv).
  apply for_range_run; [|exact Hok].
  apply Forall_forall. intros entry _. unfold validEntry.
  apply stable_and_then; apply validField_stable.
Qed.

(** C3. From any cache that [Get] built, [ValidMsg] leaves such a
    cache, and a second run on the message, its maps iterated in the
    same order, returns what the first run returned, although the first
    run may have filled the cache. When a map of a map field is
    iterated in another order, and no entry check panics, the check of
    the map returns a violation in one order iff it does in the other,
    and the violation returned is that of one of the entries. *)
Theorem C3_deterministic_up_to_map_order :
  (forall msg r,
     cache_ok r ->
     cache_ok (snd (ValidMsg msg r)) /\
     fst (ValidMsg msg (snd (ValidMsg msg r))) = fst (ValidMsg msg r)) /\
  (forall field keyType valueType entries entries' rule r r',
     GetMapKeyType field = Some keyType ->
     GetMapValueType field = Some valueType ->
     cache_ok r -> cache_ok r' ->
     entries ≡ₚ entries' ->
     (forall entry, entry ∈ entries ->
        run (validEntry keyType valueType rule entry) <> Panic) ->
     ((exists e, fst (validMap field (VMap entries) rule r) = Return (Some e)) <->
      (exists e', fst (validMap field (VMap entries') rule r') = Return (Some e'))) /\
     (forall e,
        fst (validMap field (VMap entries) rule r) = Return (Some e) ->
        exists entry,
          entry ∈ entries /\
          run (validEntry keyType valueType rule entry) = Return (Some e))).
Proof.
  split.
  - intros msg r Hok. destruct (ValidMsg_stable msg r Hok) as [Hok1 Hfst].
    split; [exact Hok1|].
    destruct (ValidMsg_stable msg _ Hok1) as [_ Hfst1]. congruence.
  - intros field keyType valueType entries entries' rule r r'
      Hk Hv Hok Hok' Hperm Hnp.
    rewrite (validMap_run _ _ _ entries _ _ Hk Hv Hok).
    rewrite (validMap_run _ _ _ entries' _ _ Hk Hv Hok').
    set (g := fun entry => run (validEntry keyType valueType rule entry)).
    assert (Hp : Panic ∉ map g entries).
    { intros Hin. apply list_elem_of_fmap in Hin as (entry & Heq & Hin).
      exact (Hnp entry Hin (eq_sym Heq)). }
    assert (Hpm : map g entries ≡ₚ map g entries') by (by apply fmap_Permutation).
    assert (Hp' : Panic ∉ map g entries') by (by rewrite <- Hpm).
    split.
    + rewrite (first_stop_error_iff _ Hp), (first_stop_error_iff _ Hp').
      by rewrite Hpm.
    + intros e He. destruct (first_stop_elem (map g entries)) as [H|H];
        [congruence|].
      rewrite He in H. apply list_elem_of_fmap in H as (entry & Heq & Hin).
      exists entry. split; [exact Hin|]. by symmetry.
Qed.

(** *** What an error carries *)

Ltac case_checks :=
  repeat match goal with
  | |- context [match ?o with Some _ => _ | None => _ end] => destruct o eqn:?
  | |- context [if ?b then _ else _] => destruct b eqn:?
  end.

Ltac report c :=
  solve [ exists c; eexists; split; [reflexivity|]; split; [tauto|];
          split;
          [ simpl; match goal with
                   | H : ?o = Some _ |- context [?o] => rewrite H; reflexivity
                   end
          | reflexivity ] ].

Lemma checkInt_reported f n rule e :
  checkInt f n rule = Some e ->
  exists rule' c t,
    rule = Some rule' /\ (c = CIntGt \/ c = CIntLt) /\
    threshold c rule' = Some t /\
    e = ValidFail f (constraint_name c) t (VInt64 n).
Proof.
  destruct rule as [rule|]; [|discriminate]. unfold checkInt, check.
  case_checks; intros [= <-]; exists rule;
    first [report CIntGt | report CIntLt].
Qed.

Lemma checkFloat_reported f x rule e :
  checkFloat f x rule = Some e ->
  exists rule' c t,
    rule = Some rule' /\
    (c = CFloatGt \/ c = CFloatLt \/ c = CFloatGte \/ c = CFloatLte) /\
    threshold c rule' = Some t /\
    e = ValidFail f (constraint_name c) t (VFloat64 x).
Proof.
  destruct rule as [rule|]; [|discriminate]. unfold checkFloat, check.
  case_checks; intros [= <-]; exists rule;
    first [report CFloatGt | report CFloatLt | report CFloatGte | report CFloatLte].
Qed.

Lemma checkBytes_reported f b rule e :
  checkBytes f b rule = Some e ->
  exists rule' c t,
    rule = Some rule' /\ (c = CLengthGt \/ c = CLengthLt \/ c = CLengthEq) /\
    threshold c rule' = Some t /\
    e = ValidFail f (constraint_name c) t (VInt64 (Z.of_nat (length b))).
Proof.
  destruct rule as [rule|]; [|discriminate]. unfold checkBytes, check.
  case_checks; intros [= <-]; exists rule;
    first [report CLengthGt | report CLengthLt | report CLengthEq].
Qed.

Lemma checkEnum_reported f n rule e :
  checkEnum f n rule = Some e ->
  exists rule',
    rule = Some rule' /\ IsInEnum rule' = Some true /\
    e = ValidFail f "IsInEnum" (VBool true) (VBool false).
Proof.
  destruct rule as [rule|]; [|discriminate]. unfold checkEnum.
  destruct (IsInEnum rule) as [[|]|] eqn:Hr; try discriminate.
  destruct (existsb _ _); [discriminate|]. intros [= <-].
  exists rule. auto.
Qed.

Lemma checkRepeated_reported f l rule e :
  checkRepeated f l rule = Some e ->
  exists rule' c t,
    rule = Some rule' /\ (c = CRepeatedCountMin \/ c = CRepeatedCountMax) /\
    threshold c rule' = Some t /\
    e = ValidFail f (constraint_name c) t (VInt64 (Z.of_nat (length l))).
Proof.
  destruct rule as [rule|]; [|discriminate]. unfold checkRepeated, check.
  case_checks; intros [= <-]; exists rule;
    first [report CRepeatedCountMin | report CRepeatedCountMax].
Qed.

Ltac reported c :=
  solve [ exists c; do 2 eexists; split;
          [ simpl; match goal with
                   | H : ?o = Some _ |- context [?o] => rewrite H; reflexivity
                   end
          | split; reflexivity ] ].

Lemma checkString_reported f s rule r e r' :
  checkString f s rule r = (Some e, r') ->
  exists rule', rule = Some rule' /\ Reported f (VString s) rule' e.
Proof.
  destruct rule as [rule|]; [|discriminate]. unfold checkString, check.
  intros H. exists rule. split; [reflexivity|]. revert H.
  destruct (StringNotEmpty rule) as [notEmpty|] eqn:?;
    [destruct (notEmpty && String.eqb s "") eqn:?|];
    destruct (LengthGt rule) eqn:?; destruct (LengthLt rule) eqn:?;
    destruct (LengthEq rule) eqn:?; destruct (Regex rule) as [expr|] eqn:?;
    try destruct (Get expr r) as [[exp|] r1];
    case_checks; intros [= <- <-]; unfold Reported;
    first [ reported CStringNotEmpty | reported CLengthGt | reported CLengthLt
          | reported CLengthEq | reported CRegex ].
Qed.

Lemma validField_leaf_reported f v rule r e r' :
  leaf v ->
  validField f v rule r = (Return (Some e), r') ->
  exists rule', rule = Some rule' /\ Reported f v rule' e.
Proof.
  intros Hleaf. unfold validField, validFieldF, checkMessageF, ret, panic.
  destruct v; try contradiction; try discriminate;
    destruct (GetType f); try discriminate;
    try (intros [= H <-];
         first [ apply checkInt_reported in H as (rule' & c & t & -> & Hc & Ht & ->)
               | apply checkFloat_reported in H as (rule' & c & t & -> & Hc & Ht & ->)
               | apply checkBytes_reported in H as (rule' & c & t & -> & Hc & Ht & ->) ];
         exists rule'; split; [reflexivity|]; exists c, t; eexists;
         (split; [exact Ht|]); split; [|reflexivity];
         intuition (subst c; reflexivity)).
  - intros [= H <-]. apply checkEnum_reported in H as (rule' & -> & Hr & ->).
    exists rule'. split; [reflexivity|]. exists CIsInEnum. do 2 eexists.
    simpl. rewrite Hr. repeat split.
  - destruct (checkString f s rule r) as [err r1] eqn:E. intros [= -> ->].
    exact (checkString_reported _ _ _ _ _ _ E).
Qed.

Lemma elem_of_middle {A} (x : A) pre post : x ∈ pre ++ x :: post.
Proof. set_solver. Qed.

Lemma reports_within_all :
  (forall value, reports_within value) /\
  (forall msg r e r',
     ValidMsg msg r = (Return (Some e), r') ->
     exists f' v' rule',
       checked_in msg f' v' (Some rule') /\ Reported f' v' rule' e).
Proof.
  apply Value_Message_ind.
  - intros v Hleaf f rule r e r' [H|[H|H]].
    + destruct (validField_leaf_reported _ _ _ _ _ _ Hleaf H) as (rule' & -> & Hrep).
      exists f, v, rule'. split; [constructor|exact Hrep].
    + destruct v; try contradiction; discriminate.
    + destruct v; try contradiction; discriminate.
  - intros m IH f rule r e r' [H|[H|H]]; try discriminate.
    unfold validField, validFieldF, checkMessageF in H.
    destruct (GetType f); try discriminate.
    destruct (IH _ _ _ H) as (f' & v' & rule' & Hin & Hrep).
    exists f', v', rule'. split; [by constructor|exact Hrep].
  - intros l IH f rule r e r' [H|[H|H]]; try discriminate.
    + unfold validField, validFieldF in H.
      destruct (GetType f); discriminate.
    + unfold validRepeated, validRepeatedF in H.
      apply and_then_error_inv in H as [H|(r1 & _ & H)].
      * injection H as H <-.
        apply checkRepeated_reported in H as (rule' & c & t & -> & Hc & Ht & ->).
        exists f, (VList l), rule'. split; [constructor|].
        exists c, t. eexists. split; [exact Ht|]. split; [|reflexivity].
        intuition (subst c; reflexivity).
      * apply for_range_error_inv in H as (pre & item & post & r2 & -> & _ & H).
        rewrite Forall_forall in IH.
        pose proof (IH item (elem_of_middle _ _ _) f rule r2 e r' (or_introl H))
          as (f' & v' & rule' & Hin & Hrep).
        exists f', v', rule'. split; [|exact Hrep].
        eapply within_item; [apply elem_of_middle|exact Hin].
  - intros l IH f rule r e r' [H|[H|H]]; try discriminate.
    + unfold validField, validFieldF in H.
      destruct (GetType f); discriminate.
    + unfold validMap, validMapF in H.
      apply for_range_error_inv in H as (pre & [key item] & post & r2 & -> & _ & H).
      rewrite Forall_forall in IH.
      pose proof (IH (key, item) (elem_of_middle _ _ _)) as [IHk IHi]. simpl in *.
      apply and_then_error_inv in H as [H|(r3 & _ & H)].
      * destruct (GetMapKeyType f) as [keyType|] eqn:Hk;
          [|destruct key; discriminate].
        destruct (IHk keyType rule r2 e r' (or_introl H))
          as (f' & v' & rule' & Hin & Hrep).
        exists f', v', rule'. split; [|exact Hrep].
        eapply (within_key _ _ _ key item); [apply elem_of_middle|exact Hk|exact Hin].
      * destruct (GetMapValueType f) as [valueType|] eqn:Hv;
          [|destruct item; discriminate].
        destruct (IHi valueType None r3 e r' (or_introl H))
          as (f' & v' & rule' & Hin & Hrep).
        exists f', v', rule'. split; [|exact Hrep].
        eapply (within_value _ _ _ key item); [apply elem_of_middle|exact Hv|exact Hin].
  - intros r e r' H. discriminate.
  - intros known IH r e r' H. rewrite ValidMsg_unfold in H.
    apply recover_error_inv in H. rewrite Valid_DynMessage in H.
    apply for_range_error_inv in H as (pre & [fd got] & post & r1 & -> & _ & H).
    rewrite Forall_forall in IH.
    unfold validKnown, validKnownF in H. simpl in H.
    destruct (IsExtension fd); [discriminate|].
    destruct got as [value|]; [|discriminate].
    pose proof (elem_of_middle (fd, Some value) pre post) as Hin.
    assert (Hany : validField fd value (getRule fd) r1 = (Return (Some e), r') \/
                   validRepeated fd value (getRule fd) r1 = (Return (Some e), r') \/
                   validMap fd value (getRule fd) r1 = (Return (Some e), r')).
    { destruct (IsMap fd); [|destruct (IsRepeated fd)]; auto. }
    destruct (IH _ Hin value eq_refl fd _ _ _ _ Hany) as (f' & v' & rule' & Hw & Hrep).
    exists f', v', rule'. split; [|exact Hrep].
    econstructor; [exact Hin|exact Hw].
Qed.

Lemma Violated_Reported f value rule e :
  Violated f value rule e -> Reported f value rule e.
Proof. intros (c & t & o & Ht & Ho & He & _). exists c, t, o. auto. Qed.

Ltac bool_facts :=
  repeat match goal with
  | H : negb _ = true |- _ => apply negb_true_iff in H
  | H : negb _ = false |- _ => apply negb_false_iff in H
  end.

(** The error of constraint [c], whose threshold is read by [Ht] and
    whose breaking comparison is closed by [tac]. *)
Ltac violated_by c tac :=
  solve [ exists c; do 2 eexists;
          split; [simpl; match goal with
                         | H : ?o = Some _ |- context [?o] => rewrite H; reflexivity
                         end|];
          split; [solve [reflexivity | eassumption]|];
          split; [reflexivity|];
          simpl; tac ].

Ltac int_broken :=
  do 2 eexists;
  split; [solve [reflexivity | eassumption]|];
  split; [simpl; match goal with
                 | H : ?o = Some _ |- context [?o] => rewrite H; reflexivity
                 end|];
  lia.

Ltac float_broken :=
  do 2 eexists;
  split; [solve [reflexivity | eassumption]|];
  split; [eassumption|]; assumption.

Lemma checkInt_violated f value n rule e :
  observed CIntGt value = Some (VInt64 n) ->
  checkInt f n rule = Some e ->
  exists rule', rule = Some rule' /\ Violated f value rule' e.
Proof.
  intros Hobs. destruct rule as [rule|]; [|discriminate].
  unfold checkInt, check.
  case_checks; intros [= <-]; exists rule; (split; [reflexivity|]);
    bool_facts;
    first [violated_by CIntGt int_broken | violated_by CIntLt int_broken].
Qed.

Lemma checkFloat_violated f value x rule e :
  observed CFloatGt value = Some (VFloat64 x) ->
  checkFloat f x rule = Some e ->
  exists rule', rule = Some rule' /\ Violated f value rule' e.
Proof.
  intros Hobs. destruct rule as [rule|]; [|discriminate].
  unfold checkFloat, check. cbv zeta.
  destruct (FloatGt rule) as [gt|] eqn:?;
    [destruct (negb (gt <? valueMax x rule)%float) eqn:?|];
    (destruct (FloatLt rule) as [lt|] eqn:?;
     [destruct (negb (valueMin x rule <? lt)%float) eqn:?|]);
    (destruct (FloatGte rule) as [gte|] eqn:?;
     [destruct (negb (gte <=? valueMax x rule)%float) eqn:?|]);
    (destruct (FloatLte rule) as [lte|] eqn:?;
     [destruct (negb (valueMin x rule <=? lte)%float) eqn:?|]);
    intros [= <-]; exists rule; (split; [reflexivity|]);
    bool_facts;
    first [ violated_by CFloatGt float_broken | violated_by CFloatLt float_broken
          | violated_by CFloatGte float_broken | violated_by CFloatLte float_broken ].
Qed.

Lemma checkBytes_violated f b rule e :
  checkBytes f b rule = Some e ->
  exists rule', rule = Some rule' /\ Violated f (VBytes b) rule' e.
Proof.
  destruct rule as [rule|]; [|discriminate]. unfold checkBytes, check.
  case_checks; intros [= <-]; exists rule; (split; [reflexivity|]);
    bool_facts;
    first [ violated_by CLengthGt int_broken | violated_by CLengthLt int_broken
          | violated_by CLengthEq int_broken ].
Qed.

Lemma checkRepeated_violated f l rule e :
  checkRepeated f l rule = Some e ->
  exists rule', rule = Some rule' /\ Violated f (VList l) rule' e.
Proof.
  destruct rule as [rule|]; [|discriminate]. unfold checkRepeated, check.
  case_checks; intros [= <-]; exists rule; (split; [reflexivity|]);
    bool_facts;
    first [ violated_by CRepeatedCountMin int_broken
          | violated_by CRepeatedCountMax int_broken ].
Qed.

Lemma checkEnum_violated f n rule e :
  checkEnum f n rule = Some e ->
  exists rule', rule = Some rule' /\ Violated f (VInt32 n) rule' e.
Proof.
  destruct rule as [rule|]; [|discriminate]. unfold checkEnum.
  destruct (IsInEnum rule) as [[|]|] eqn:Hr; try discriminate.
  destruct (existsb _ _) eqn:E; [discriminate|]. intros [= <-].
  exists rule. split; [reflexivity|].
  exists CIsInEnum, (VBool true), (VBool false). simpl. rewrite Hr.
  repeat split. exists n. repeat split.
  intros Hin. apply list_elem_of_In in Hin.
  assert (existsb (fun number => n =? number) (GetEnumValues f) = true)
    as Ht by (apply existsb_exists; exists n; split; [exact Hin|apply Z.eqb_refl]).
  congruence.
Qed.

Lemma checkString_violated f s rule r e r' :
  cache_ok r ->
  checkString f s rule r = (Some e, r') ->
  exists rule', rule = Some rule' /\ Violated f (VString s) rule' e.
Proof.
  intros Hok. destruct rule as [rule|]; [|discriminate].
  unfold checkString, check.
  intros H. exists rule. split; [reflexivity|]. revert H.
  destruct (StringNotEmpty rule) as [notEmpty|] eqn:?;
    [destruct (notEmpty && String.eqb s "") eqn:Hempty|];
    destruct (LengthGt rule) eqn:?; destruct (LengthLt rule) eqn:?;
    destruct (LengthEq rule) eqn:?; destruct (Regex rule) as [expr|] eqn:?;
    try (destruct (Get_cache_ok expr r Hok) as [_ Hget];
         destruct (Get expr r) as [[exp|] r1]; simpl in Hget; symmetry in Hget);
    case_checks; intros [= <- <-]; bool_facts;
    try (apply andb_true_iff in Hempty as [-> Hs];
         apply String.eqb_eq in Hs as ->);
    first [ violated_by CStringNotEmpty ltac:(split; [assumption|reflexivity])
          | violated_by CLengthGt int_broken
          | violated_by CLengthLt int_broken
          | violated_by CLengthEq int_broken
          | violated_by CRegex ltac:(do 3 eexists; repeat split; eassumption) ].
Qed.

Lemma validField_leaf_violated f v rule r e r' :
  leaf v -> cache_ok r ->
  validField f v rule r = (Return (Some e), r') ->
  exists rule', rule = Some rule' /\ Violated f v rule' e.
Proof.
  intros Hleaf Hok. unfold validField, validFieldF, checkMessageF, ret, panic.
  destruct v; try contradiction; try discriminate;
    destruct (GetType f); try discriminate;
    try (intros [= H <-];
         first [ solve [eapply checkInt_violated; [reflexivity|exact H]]
               | solve [eapply checkFloat_violated; [reflexivity|exact H]]
               | solve [apply checkBytes_violated; exact H]
               | solve [apply checkEnum_violated; exact H] ]).
  match goal with
  | |- context [checkString f ?s rule r] =>
      destruct (checkString f s rule r) as [err r1] eqn:E
  end.
  intros [= -> ->]. exact (checkString_violated _ _ _ _ _ _ Hok E).
Qed.

Lemma validKnown_stable slot : stable (validKnown slot).
Proof.
  destruct slot as [fd got]. unfold validKnown, validKnownF. simpl.
  destruct (IsExtension fd); [apply stable_ret|].
  destruct got as [value|]; [|apply stable_ret].
  destruct (IsMap fd); [apply validMap_stable|].
  destruct (IsRepeated fd); [apply validRepeated_stable|apply validField_stable].
Qed.

Lemma for_range_cache_ok {A} (body : A -> M) l r res r' :
  (forall x, stable (body x)) -> cache_ok r ->
  for_range body l r = (res, r') -> cache_ok r'.
Proof.
  intros Hst Hok H.
  assert (Forall (fun x => stable (body x)) l) as Hall
    by (apply Forall_forall; auto).
  destruct (stable_for_range body l Hall r Hok) as [Hok' _].
  rewrite H in Hok'. exact Hok'.
Qed.

Lemma violates_within_all :
  (forall value, violates_within value) /\
  (forall msg r e r',
     cache_ok r ->
     ValidMsg msg r = (Return (Some e), r') ->
     exists f' v' rule',
       checked_in msg f' v' (Some rule') /\ Violated f' v' rule' e).
Proof.
  apply Value_Message_ind.
  - intros v Hleaf f rule r e r' Hok [H|[H|H]].
    + destruct (validField_leaf_violated _ _ _ _ _ _ Hleaf Hok H)
        as (rule' & -> & Hv).
      exists f, v, rule'. split; [constructor|exact Hv].
    + destruct v; try contradiction; discriminate.
    + destruct v; try contradiction; discriminate.
  - intros m IH f rule r e r' Hok [H|[H|H]]; try discriminate.
    unfold validField, validFieldF, checkMessageF in H.
    destruct (GetType f); try discriminate.
    destruct (IH _ _ _ Hok H) as (f' & v' & rule' & Hin & Hv).
    exists f', v', rule'. split; [by constructor|exact Hv].
  - intros l IH f rule r e r' Hok [H|[H|H]]; try discriminate.
    + unfold validField, validFieldF in H.
      destruct (GetType f); discriminate.
    + unfold validRepeated, validRepeatedF in H.
      apply and_then_error_inv in H as [H|(r1 & Hr1 & H)].
      * injection H as H <-.
        apply checkRepeated_violated in H as (rule' & -> & Hv).
        exists f, (VList l), rule'. split; [constructor|exact Hv].
      * injection Hr1 as _ <-.
        apply for_range_error_inv in H as (pre & item & post & r2 & -> & Hpre & H).
        assert (cache_ok r2) as Hok2.
        { eapply (for_range_cache_ok _ pre r); [|exact Hok|exact Hpre].
          intros x. apply validField_stable. }
        rewrite Forall_forall in IH.
        pose proof (IH item (elem_of_middle _ _ _) f rule r2 e r' Hok2 (or_introl H))
          as (f' & v' & rule' & Hin & Hv).
        exists f', v', rule'. split; [|exact Hv].
        eapply within_item; [apply elem_of_middle|exact Hin].
  - intros l IH f rule r e r' Hok [H|[H|H]]; try discriminate.
    + unfold validField, validFieldF in H.
      destruct (GetType f); discriminate.
    + unfold validMap, validMapF in H.
      apply for_range_error_inv in H as (pre & [key item] & post & r2 & -> & Hpre & H).
      assert (cache_ok r2) as Hok2.
      { eapply (for_range_cache_ok _ pre r); [|exact Hok|exact Hpre].
        intros x. apply stable_and_then; apply stable_validFieldP;
          intros f0; apply validField_stable. }
      rewrite Forall_forall in IH.
      pose proof (IH (key, item) (elem_of_middle _ _ _)) as [IHk IHi]. simpl in *.
      apply and_then_error_inv in H as [H|(r3 & Hkey & H)].
      * destruct (GetMapKeyType f) as [keyType|] eqn:Hk;
          [|destruct key; discriminate].
        destruct (IHk keyType rule r2 e r' Hok2 (or_introl H))
          as (f' & v' & rule' & Hin & Hv).
        exists f', v', rule'. split; [|exact Hv].
        eapply (within_key _ _ _ key item); [apply elem_of_middle|exact Hk|exact Hin].
      * assert (cache_ok r3) as Hok3.
        { assert (stable (validFieldP ValidMsg (GetMapKeyType f) key rule)) as Hst
            by (apply stable_validFieldP; intros f0; apply validField_stable).
          destruct (Hst r2 Hok2) as [Hok3 _]. rewrite Hkey in Hok3. exact Hok3. }
        destruct (GetMapValueType f) as [valueType|] eqn:Hvt;
          [|destruct item; discriminate].
        destruct (IHi valueType None r3 e r' Hok3 (or_introl H))
          as (f' & v' & rule' & Hin & Hv).
        exists f', v', rule'. split; [|exact Hv].
        eapply (within_value _ _ _ key item); [apply elem_of_middle|exact Hvt|exact Hin].
  - intros r e r' _ H. discriminate.
  - intros known IH r e r' Hok H. rewrite ValidMsg_unfold in H.
    apply recover_error_inv in H. rewrite Valid_DynMessage in H.
    apply for_range_error_inv in H as (pre & [fd got] & post & r1 & -> & Hpre & H).
    assert (cache_ok r1) as Hok1.
    { eapply (for_range_cache_ok _ pre r); [|exact Hok|exact Hpre].
      apply validKnown_stable. }
    rewrite Forall_forall in IH.
    unfold validKnown, validKnownF in H. simpl in H.
    destruct (IsExtension fd); [discriminate|].
    destruct got as [value|]; [|discriminate].
    pose proof (elem_of_middle (fd, Some value) pre post) as Hin.
    assert (Hany : validField fd value (getRule fd) r1 = (Return (Some e), r') \/
                   validRepeated fd value (getRule fd) r1 = (Return (Some e), r') \/
                   validMap fd value (getRule fd) r1 = (Return (Some e), r')).
    { destruct (IsMap fd); [|destruct (IsRepeated fd)]; auto. }
    destruct (IH _ Hin value eq_refl fd _ _ _ _ Hok1 Hany)
      as (f' & v' & rule' & Hw & Hv).
    exists f', v', rule'. split; [|exact Hv].
    econstructor; [exact Hin|exact Hw].
Qed.

(** C9. A violation returned by [ValidMsg] was raised on a field
    reached in the message: it carries that field's descriptor, the
    name of a constraint set in the rule the field was checked under,
    the threshold of the constraint and what the checker found, which
    is the value as an int64 or a float64, the string, a length or a
    count. From a cache that only [Get] has written, the constraint
    named is one that the value breaks, by the comparison of its
    checker. For the enum test the error carries the threshold true and
    the boolean false, not the number found. *)
Theorem C9_error_reports_constraint :
  (forall msg r e r',
     ValidMsg msg r = (Return (Some e), r') ->
     exists f value rule,
       checked_in msg f value (Some rule) /\ Reported f value rule e) /\
  (forall msg r e r',
     cache_ok r ->
     ValidMsg msg r = (Return (Some e), r') ->
     exists f value rule,
       checked_in msg f value (Some rule) /\ Violated f value rule e) /\
  (forall f n rule r e r',
     GetType f = TYPE_ENUM ->
     validField f (VInt32 n) rule r = (Return (Some e), r') ->
     e = ValidFail f "IsInEnum" (VBool true) (VBool false)).
Proof.
  split; [|split].
  - apply reports_within_all.
  - apply violates_within_all.
  - intros f n rule r e r' Ht H. unfold validField, validFieldF in H.
    rewrite Ht in H. injection H as H _.
    by apply checkEnum_reported in H as (rule' & _ & _ & ->).
Qed.

(** ** Further properties of the cache and of the traversal *)

(** X1. A successful [Get] leaves the pattern in the cache under its
    expression, touches no other key and drops nothing, and asking
    again returns the same compiled pattern with the cache unchanged. A
    failed [Get] means the expression was not cached and does not
    compile, and leaves the cache as it was. *)
Theorem X1_Get_memoizes expr r :
  (forall exp r',
     Get expr r = (Some exp, r') ->
     r' !! expr = Some exp /\
     Get expr r' = (Some exp, r') /\
     (forall other, other <> expr -> r' !! other = r !! other) /\
     r ⊆ r') /\
  (forall r',
     Get expr r = (None, r') ->
     r' = r /\ r !! expr = None /\ regexp_Compile expr = None).
Proof.
  unfold Get. split.
  - intros exp r'. destruct (r !! expr) as [exp0|] eqn:Hr.
    + intros [= <- <-]. rewrite Hr. done.
    + destruct (regexp_Compile expr) as [exp0|] eqn:Hc; [|discriminate].
      intros [= <- <-]. rewrite lookup_insert_eq.
      split; [done|]. split; [done|]. split; [|by apply insert_subseteq].
      intros other Hne. by rewrite lookup_insert_ne.
  - intros r'. destruct (r !! expr) as [exp0|] eqn:Hr; [discriminate|].
    destruct (regexp_Compile expr) as [exp0|] eqn:Hc; [discriminate|].
    intros [= <-]. done.
Qed.

(** X2. On a cache that only [Get] has written, [Get] returns what
    [regexp.Compile] returns for the expression, whether it was cached
    or not, and leaves such a cache. *)
Theorem X2_Get_agrees_with_Compile expr r :
  cache_ok r ->
  fst (Get expr r) = regexp_Compile expr /\
  cache_ok (snd (Get expr r)) /\
  fst (Get expr (snd (Get expr r))) = fst (Get expr r).
Proof.
  intros Hok. destruct (Get_cache_ok expr r Hok) as [Hok' Hfst].
  destruct (Get_cache_ok expr _ Hok') as [_ Hfst'].
  repeat split; [exact Hfst|exact Hok'|congruence].
Qed.

(** X3. Resetting the cache does not change what a validation
    returns: with a cache that only [Get] has written, [ValidMsg]
    returns the same from the reset cache. *)
Theorem X3_reset_keeps_results msg r :
  cache_ok r -> fst (ValidMsg msg (reset r)) = fst (ValidMsg msg r).
Proof.
  intros Hok. unfold reset. symmetry. apply ValidMsg_stable, Hok.
Qed.

Lemma grows_ret err : grows (ret err).
Proof. intros r. done. Qed.

Lemma grows_panic : grows panic.
Proof. intros r. done. Qed.

Lemma grows_and_then m k : grows m -> grows k -> grows (and_then m k).
Proof.
  intros Hm Hk r. unfold and_then. specialize (Hm r).
  destruct (m r) as [[[e|]|] r1]; simpl in *; try exact Hm.
  etrans; [exact Hm|apply Hk].
Qed.

Lemma grows_recover m : grows m -> grows (recover m).
Proof.
  intros Hm r. unfold recover. specialize (Hm r).
  destruct (m r) as [[e|] r1]; exact Hm.
Qed.

Lemma grows_for_range {A} (body : A -> M) l :
  Forall (fun x => grows (body x)) l -> grows (for_range body l).
Proof.
  induction 1 as [|x l Hx _ IH]; simpl.
  - apply grows_ret.
  - by apply grows_and_then.
Qed.

Lemma Get_grows expr r : r ⊆ snd (Get expr r).
Proof.
  unfold Get. destruct (r !! expr) as [exp|] eqn:Hr; [done|].
  destruct (regexp_Compile expr) as [exp|]; [|done].
  by apply insert_subseteq.
Qed.

Lemma grows_checkString field value rule :
  grows (fun r => let (err, r') := checkString field value rule r in (Return err, r')).
Proof.
  intros r. unfold checkString, check.
  destruct rule as [rule|]; [|done].
  repeat match goal with
  | |- context [match ?o with Some _ => _ | None => _ end] =>
      lazymatch o with
      | Regex _ => fail
      | _ => destruct o
      end
  | |- context [if ?b then _ else _] =>
      lazymatch b with
      | negb (MatchString _ _) => fail
      | _ => destruct b
      end
  end; try done;
  (destruct (Regex rule) as [expr|]; [|done];
   pose proof (Get_grows expr r) as Hg;
   destruct (Get expr r) as [[exp|] r1]; [|exact Hg];
   destruct (negb (MatchString exp value)); exact Hg).
Qed.

Lemma grows_validFieldP field value rule :
  (forall field, grows (validField field value rule)) ->
  grows (validFieldP ValidMsg field value rule).
Proof.
  intros H. destruct field as [field|]; simpl; [apply H|].
  destruct value; first [apply grows_ret | apply grows_panic].
Qed.

Lemma grows_value_ValidMsg :
  (forall value, grows_value value) /\ (forall msg, grows (ValidMsg msg)).
Proof.
  apply Value_Message_ind.
  - intros v Hleaf field rule. split; [|split].
    + unfold validField, validFieldF.
      destruct v; try contradiction; try apply grows_ret;
        destruct (GetType field);
        first [apply grows_ret | apply grows_panic | apply grows_checkString].
    + destruct v; try contradiction; exact (grows_ret None).
    + destruct v; try contradiction; exact (grows_ret None).
  - intros m IH field rule. split; [|split]; try exact (grows_ret None).
    unfold validField, validFieldF.
    destruct (GetType field);
      first [apply grows_ret | apply grows_panic | exact IH].
  - intros l IH field rule. split; [|split]; try exact (grows_ret None).
    + unfold validField, validFieldF.
      destruct (GetType field); first [apply grows_ret | apply grows_panic].
    + unfold validRepeated, validRepeatedF.
      apply grows_and_then; [apply grows_ret|].
      apply grows_for_range. eapply Forall_impl; [exact IH|].
      intros item Hitem. apply Hitem.
  - intros l IH field rule. split; [|split]; try exact (grows_ret None).
    + unfold validField, validFieldF.
      destruct (GetType field); first [apply grows_ret | apply grows_panic].
    + unfold validMap, validMapF.
      apply grows_for_range. eapply Forall_impl; [exact IH|].
      intros [k x] [Hk Hx]. simpl in *.
      apply grows_and_then; apply grows_validFieldP; intros f.
      * apply Hk.
      * apply Hx.
  - rewrite ValidMsg_unfold. apply grows_recover, grows_ret.
  - intros known IH. rewrite ValidMsg_unfold. apply grows_recover.
    unfold Valid, ValidF. apply grows_for_range.
    eapply Forall_impl; [exact IH|]. clear IH.
    intros [fd got] IH. unfold validKnownF. simpl in *.
    destruct (IsExtension fd); [apply grows_ret|].
    destruct got as [value|]; [|apply grows_ret].
    specialize (IH value eq_refl fd (getRule fd)).
    destruct IH as (IH1 & IH2 & IH3).
    destruct (IsMap fd); [|destruct (IsRepeated fd)]; assumption.
Qed.

(** X4. A validation only adds to the cache: every pattern cached
    before [ValidMsg] is cached after it, under the same compiled
    pattern, also when a check panicked on the way. *)
Theorem X4_ValidMsg_keeps_cache msg r expr exp :
  r !! expr = Some exp -> snd (ValidMsg msg r) !! expr = Some exp.
Proof.
  intros Hr. pose proof (proj2 grows_value_ValidMsg msg r) as Hsub.
  exact (lookup_weaken _ _ _ _ Hr Hsub).
Qed.

(** X5. A message with no rule on any field reached by the traversal,
    nested messages included, is valid: [ValidMsg] returns nil. *)
Theorem X5_no_rule_no_violation msg r :
  (forall f value rule, checked_in msg f value rule -> rule = None) ->
  fst (ValidMsg msg r) = Return None.
Proof.
  intros Hfree. destruct (ValidMsg msg r) as [[[e|]|] r'] eqn:E; simpl.
  - destruct (proj2 reports_within_all msg r e r' E) as (f & v & rule & Hin & _).
    specialize (Hfree _ _ _ Hin). discriminate.
  - reflexivity.
  - pose proof (ValidMsg_no_panic msg r) as Hnp. rewrite E in Hnp.
    by destruct Hnp.
Qed.

Lemma for_range_skip {A} (body : A -> M) pre x post r :
  (forall r0, body x r0 = (Return None, r0)) ->
  for_range body (pre ++ x :: post) r = for_range body (pre ++ post) r.
Proof.
  intros Hx. rewrite !for_range_app. unfold and_then.
  destruct (for_range body pre r) as [[[e|]|] r1]; try reflexivity.
  simpl. unfold and_then. rewrite Hx. reflexivity.
Qed.

Lemma validKnown_skipped slot r :
  skipped slot -> validKnown slot r = (Return None, r).
Proof.
  destruct slot as [fd got]. unfold skipped, validKnown, validKnownF. simpl.
  intros [He|[->| ->]].
  - rewrite He. reflexivity.
  - destruct (IsExtension fd); reflexivity.
  - destruct (IsExtension fd), (IsMap fd), (IsRepeated fd); reflexivity.
Qed.

(** X6. An extension field, a field whose value [TryGetField] could
    not read and a field whose value is nil take no part in the
    validation: the message validates as the message without that
    field, whatever rule the field carries. *)
Theorem X6_skipped_field_is_ignored pre slot post r :
  skipped slot ->
  ValidMsg (DynMessage (pre ++ slot :: post)) r
  = ValidMsg (DynMessage (pre ++ post)) r.
Proof.
  intros Hs. rewrite !ValidMsg_unfold. unfold recover.
  rewrite !Valid_DynMessage.
  rewrite (for_range_skip validKnown pre slot post r); [reflexivity|].
  intros r0. by apply validKnown_skipped.
Qed.

(** X7. A panic inside a nested message voids the nested message
    only: the message-typed field passes, and the fields declared
    after it in the enclosing message are validated, from the cache
    the nested run left. *)
Theorem X7_nested_panic_stays_nested field subMsg post r r1 :
  GetType field = TYPE_MESSAGE ->
  IsExtension field = false -> IsMap field = false -> IsRepeated field = false ->
  Valid subMsg r = (Panic, r1) ->
  ValidMsg (DynMessage ((field, Some (VMessage subMsg)) :: post)) r
  = ValidMsg (DynMessage post) r1.
Proof.
  intros Ht He Hm Hr Hp. rewrite !ValidMsg_unfold. unfold recover.
  rewrite !Valid_DynMessage. simpl.
  assert (validKnown (field, Some (VMessage subMsg)) r = (Return None, r1)) as Hk.
  { rewrite validKnown_singular by assumption.
    unfold validField, validFieldF. rewrite Ht. simpl.
    rewrite ValidMsg_unfold. by apply recover_panic. }
  rewrite (and_then_pass _ _ _ _ Hk). reflexivity.
Qed.

(** ** Further properties of the typed checkers *)

Lemma check_fails_iff {A B} (o : option A) viol (fail : A -> option B) k :
  (forall a, fail a <> None) ->
  check o viol fail k <> None <->
  (exists a, o = Some a /\ viol a = true) \/ k <> None.
Proof.
  intros Hfail. unfold check. destruct o as [a|].
  - destruct (viol a) eqn:E.
    + split; [eauto|intros _; apply Hfail].
    + split; [auto|]. intros [(a' & [= <-] & H)|H]; [congruence|exact H].
  - split; [auto|]. intros [(a' & [=] & _)|H]. exact H.
Qed.

Lemma check_pair_fails_iff {A B C} (o : option A) viol
    (fail : A -> option B * C) k :
  (forall a, fst (fail a) <> None) ->
  fst (check o viol fail k) <> None <->
  (exists a, o = Some a /\ viol a = true) \/ fst k <> None.
Proof.
  intros Hfail. unfold check. destruct o as [a|].
  - destruct (viol a) eqn:E.
    + split; [eauto|intros _; apply Hfail].
    + split; [auto|]. intros [(a' & [= <-] & H)|H]; [congruence|exact H].
  - split; [auto|]. intros [(a' & [=] & _)|H]. exact H.
Qed.

Lemma or_iff_both (A B C D : Prop) :
  (A <-> C) -> (B <-> D) -> (A \/ B <-> C \/ D).
Proof. tauto. Qed.

Lemma not_gtb_iff n t : negb (n >? t) = true <-> n <= t.
Proof. destruct (n >? t) eqn:E; simpl; split; intros H; try lia; discriminate. Qed.

Lemma not_ltb_iff n t : negb (n <? t) = true <-> t <= n.
Proof. destruct (n <? t) eqn:E; simpl; split; intros H; try lia; discriminate. Qed.

Lemma not_eqb_iff n t : negb (n =? t) = true <-> n <> t.
Proof. destruct (n =? t) eqn:E; simpl; split; intros H; try lia; discriminate. Qed.

Lemma checkString_fails_iff field value rule r :
  cache_ok r ->
  fst (checkString field value (Some rule) r) <> None <-> string_fails value rule.
Proof.
  intros Hok. unfold checkString, string_fails. cbv zeta.
  rewrite !check_pair_fails_iff by (intros a; simpl; discriminate).
  apply or_iff_both.
  { split.
    - intros ([|] & Hb & Hv); [|discriminate]. simpl in Hv.
      split; [exact Hb|]. by apply String.eqb_eq.
    - intros [Hb ->]. exists true. split; [exact Hb|]. reflexivity. }
  apply or_iff_both;
    [apply set_bound_iff; intros; apply not_gtb_iff|].
  apply or_iff_both;
    [apply set_bound_iff; intros; apply not_ltb_iff|].
  apply or_iff_both;
    [apply set_bound_iff; intros; apply not_eqb_iff|].
  destruct (Regex rule) as [expr|]; simpl.
  - destruct (Get_cache_ok expr r Hok) as [_ Hfst].
    destruct (Get expr r) as [o r1]. simpl in Hfst. subst o.
    destruct (regexp_Compile expr) as [exp|] eqn:Hc; simpl.
    + destruct (MatchString exp value) eqn:Hm; simpl.
      * split; [congruence|]. intros (expr' & exp' & [= <-] & Hc' & Hm').
        congruence.
      * split; [|discriminate]. intros _. exists expr, exp. auto.
    + split; [congruence|]. intros (expr' & exp' & [= <-] & Hc' & _).
      congruence.
  - split; [congruence|]. intros (expr' & exp' & [=] & _).
Qed.

Lemma checkBytes_fails_iff field value rule :
  checkBytes field value (Some rule) <> None <-> bytes_fails value rule.
Proof.
  unfold checkBytes, bytes_fails. cbv zeta.
  rewrite !check_fails_iff by (intros a; discriminate).
  apply or_iff_both;
    [apply set_bound_iff; intros; apply not_gtb_iff|].
  apply or_iff_both;
    [apply set_bound_iff; intros; apply not_ltb_iff|].
  pose proof (set_bound_iff (LengthEq rule) _ _
                (fun eq _ => not_eqb_iff (Z.of_nat (length value)) eq)) as Heq.
  split.
  - intros [H|H]; [|congruence]. by apply Heq.
  - intros H. left. by apply Heq.
Qed.

Lemma checkEnum_fails_iff field n rule :
  checkEnum field n (Some rule) <> None <->
  IsInEnum rule = Some true /\ n ∉ GetEnumValues field.
Proof.
  unfold checkEnum.
  destruct (IsInEnum rule) as [[|]|]; try (split; [congruence|intros [[=] _]]).
  destruct (existsb _ _) eqn:E.
  - split; [congruence|]. intros [_ Hn]. exfalso. apply Hn.
    apply existsb_exists in E as (x & Hin & Hx).
    apply Z.eqb_eq in Hx as ->. by apply list_elem_of_In.
  - split; [|discriminate]. intros _. split; [reflexivity|].
    intros Hin. apply list_elem_of_In in Hin.
    assert (existsb (fun number => n =? number) (GetEnumValues field) = true)
      as Ht by (apply existsb_exists; exists n; split; [exact Hin|apply Z.eqb_refl]).
    congruence.
Qed.

Lemma some_iff_not_none {A} (o : option A) : (exists a, o = Some a) <-> o <> None.
Proof. destruct o; split; eauto; try congruence. intros [a [=]]. Qed.

(** X8. A string field under a rule fails iff string-not-empty is
    true and the string is empty, or its length in bytes does not
    exceed length-gt, or is not below length-lt, or differs from
    length-eq, or a pattern is set that compiles and does not match. *)
Theorem X8_string_fails_iff field value rule r :
  GetType field = TYPE_STRING -> cache_ok r ->
  (exists e, fst (validField field (VString value) (Some rule) r) = Return (Some e)) <->
  string_fails value rule.
Proof.
  intros Ht Hok. rewrite <- (checkString_fails_iff field value rule r Hok).
  unfold validField, validFieldF. rewrite Ht.
  destruct (checkString field value (Some rule) r) as [[e|] r']; simpl.
  - split; [congruence|eauto].
  - split; [intros [e [=]]|congruence].
Qed.

(** X9. Under a rule whose only string constraint is length-eq = N,
    a string field is valid exactly when the string is N bytes long,
    whatever it contains. *)
Theorem X9_length_eq_exact field value rule n r :
  GetType field = TYPE_STRING ->
  LengthEq rule = Some n ->
  StringNotEmpty rule = None -> LengthGt rule = None ->
  LengthLt rule = None -> Regex rule = None ->
  validField field (VString value) (Some rule) r = (Return None, r) <->
  Z.of_nat (String.length value) = n.
Proof.
  intros Ht Heq Hne Hgt Hlt Hre. unfold validField, validFieldF. rewrite Ht.
  unfold checkString, check. rewrite Heq, Hne, Hgt, Hlt, Hre.
  destruct (Z.of_nat (String.length value) =? n) eqn:E; simpl.
  - split; [lia|reflexivity].
  - split; [discriminate|lia].
Qed.

(** X10. A bytes field under a rule fails iff its length does not
    exceed length-gt, or is not below length-lt, or differs from
    length-eq: string-not-empty and the pattern are not applied to
    bytes. *)
Theorem X10_bytes_fails_iff field value rule r :
  GetType field = TYPE_BYTES ->
  (exists e, validField field (VBytes value) (Some rule) r = (Return (Some e), r)) <->
  bytes_fails value rule.
Proof.
  intros Ht. rewrite <- (checkBytes_fails_iff field value rule).
  unfold validField, validFieldF. rewrite Ht. unfold ret.
  destruct (checkBytes field value (Some rule)) as [e|].
  - split; [congruence|eauto].
  - split; [intros [e [=]]|congruence].
Qed.

(** X11. An enum field under a rule fails iff is-in-enum is set to
    true and the number is none of those the enum type declares; with
    is-in-enum false or unset every number passes. *)
Theorem X11_enum_fails_iff field n rule r :
  GetType field = TYPE_ENUM ->
  (exists e, validField field (VInt32 n) (Some rule) r = (Return (Some e), r)) <->
  IsInEnum rule = Some true /\ n ∉ GetEnumValues field.
Proof.
  intros Ht. rewrite <- (checkEnum_fails_iff field n rule).
  unfold validField, validFieldF. rewrite Ht. unfold ret.
  destruct (checkEnum field n (Some rule)) as [e|].
  - split; [congruence|eauto].
  - split; [intros [e [=]]|congruence].
Qed.

Lemma validField_int_checkInt field value n rule r :
  int_typed (GetType field) value n -> in_int64 n ->
  validField field value rule r = (Return (checkInt field n rule), r).
Proof.
  intros Ht Hn. unfold validField, validFieldF, int_typed in *.
  destruct (GetType field); try contradiction; destruct Ht as [-> Hr];
    unfold ret; rewrite ?(int64_in_range n Hn); reflexivity.
Qed.

(** X13. The two integer bounds are not checked against each other:
    under a rule with int-lt <= int-gt + 1 every integer value is
    rejected. *)
Theorem X13_int_bounds_unsatisfiable field value n rule gt lt r :
  int_typed (GetType field) value n -> in_int64 n ->
  IntGt rule = Some gt -> IntLt rule = Some lt -> lt <= gt + 1 ->
  exists e, validField field value (Some rule) r = (Return (Some e), r).
Proof.
  intros Ht Hn Hgt Hlt Hle. rewrite (validField_int_checkInt _ _ _ _ _ Ht Hn).
  unfold checkInt, check. rewrite Hgt, Hlt.
  destruct (n >? gt) eqn:E1; simpl; [|eauto].
  destruct (n <? lt) eqn:E2; simpl; [lia|eauto].
Qed.

(** X14. The checker of a declared kind reads only the constraints of
    that kind: the check of a value under a rule is its check under the
    rule with every other constraint unset. *)
Theorem X14_other_constraints_ignored field value rule r :
  validField field value (Some rule) r
  = validField field value (Some (restrict (GetType field) rule)) r.
Proof.
  unfold validField, validFieldF.
  destruct value; try reflexivity; destruct (GetType field); reflexivity.
Qed.

(** X15. When an integer value breaks both bounds the error names
    int-gt: int-gt is reported whenever the value does not exceed it,
    and int-lt only when int-gt is unset or met. *)
Theorem X15_int_gt_reported_first field value n rule r e r' :
  int_typed (GetType field) value n -> in_int64 n ->
  validField field value (Some rule) r = (Return (Some e), r') ->
  (validKey e = "IntGt" <-> exists gt, IntGt rule = Some gt /\ n <= gt) /\
  (validKey e = "IntGt" \/ validKey e = "IntLt").
Proof.
  intros Ht Hn. rewrite (validField_int_checkInt _ _ _ _ _ Ht Hn).
  unfold checkInt, check. intros [= H <-]. revert H.
  destruct (IntGt rule) as [gt|]; [destruct (n >? gt) eqn:E1|]; simpl;
    (destruct (IntLt rule) as [lt|]; [destruct (n <? lt) eqn:E2|]); simpl;
    intros [= <-]; simpl;
    (split; [|auto]);
    (split;
     [ first [discriminate | intros _; eexists; split; [reflexivity|lia]]
     | first [ reflexivity
             | intros (g & Hg & Hle); first [discriminate | injection Hg as <-; lia] ] ]).
Qed.

(** X16. The bounds on the element count are not applied to a map
    field, whatever the number of its entries: [validMap] returns the
    same under any repeated-count-min and repeated-count-max. *)
Theorem X16_map_ignores_counts field value rule min max r :
  validMap field value (Some rule) r
  = validMap field value (Some (with_counts min max rule)) r.
Proof.
  unfold validMap, validMapF. destruct value; reflexivity.
Qed.

Lemma for_range_stop_inv {A} (body : A -> M) l r res r' :
  for_range body l r = (res, r') -> res <> Return None ->
  exists pre x post r1,
    l = pre ++ x :: post /\
    all_pass body pre r r1 /\
    body x r1 = (res, r').
Proof.
  revert r. induction l as [|x l IH]; intros r H Hne; simpl in H.
  - injection H as <- _. congruence.
  - unfold and_then in H. destruct (body x r) as [res0 r0] eqn:Hx.
    destruct res0 as [[e|]|].
    + injection H as <- <-. exists [], x, l, r. split; [reflexivity|].
      split; [constructor|exact Hx].
    + destruct (IH _ H Hne) as (pre & y & post & r1 & -> & Hpre & Hy).
      exists (x :: pre), y, post, r1. split; [reflexivity|].
      split; [econstructor; eauto|exact Hy].
    + injection H as <- <-. exists [], x, l, r. split; [reflexivity|].
      split; [constructor|exact Hx].
Qed.

(** X17. [ValidMsg] returns a violation exactly when some known field
    returns it after every known field before it, in the order of
    [GetKnownFields], has passed: the first violation is the one
    reported and no field after it is looked at. *)
Theorem X17_first_violation_in_field_order known r e r' :
  ValidMsg (DynMessage known) r = (Return (Some e), r') <->
  exists pre slot post r1,
    known = pre ++ slot :: post /\
    all_pass validKnown pre r r1 /\
    validKnown slot r1 = (Return (Some e), r').
Proof.
  rewrite ValidMsg_unfold. split.
  - intros H. apply recover_error_inv in H. rewrite Valid_DynMessage in H.
    apply for_range_stop_inv in H; [exact H|discriminate].
  - intros (pre & slot & post & r1 & -> & Hpre & Hslot).
    apply recover_return. rewrite Valid_DynMessage.
    eapply for_range_first; [by apply for_range_all_pass|exact Hslot|discriminate].
Qed.

(** X18. [ValidMsg] returns nil exactly when every known field passes,
    or when the check of some known field panics after the fields
    before it have passed. *)
Theorem X18_valid_iff_pass_or_panic known r r' :
  ValidMsg (DynMessage known) r = (Return None, r') <->
  all_pass validKnown known r r' \/
  exists pre slot post r1,
    known = pre ++ slot :: post /\
    all_pass validKnown pre r r1 /\
    validKnown slot r1 = (Panic, r').
Proof.
  rewrite ValidMsg_unfold, Valid_DynMessage. unfold recover. split.
  - destruct (for_range validKnown known r) as [[[e|]|] r0] eqn:E;
      intros [= <-]; try discriminate.
    + left. by apply for_range_all_pass.
    + right. apply for_range_stop_inv in E; [exact E|discriminate].
  - intros [Hall|(pre & slot & post & r1 & -> & Hpre & Hslot)].
    + apply for_range_all_pass in Hall. rewrite Hall. reflexivity.
    + rewrite (for_range_first validKnown pre slot post r r1 Panic r');
        [reflexivity|by apply for_range_all_pass|exact Hslot|discriminate].
Qed.

End Engine.

(** ** The examples, run with the stand-in regexp package *)

Lemma C10_unhandled_kind_witness :
  validField string lit_Compile lit_MatchString
    f_flag (VBool true) (getRule f_flag) ∅ = (Return None, ∅).
Proof. apply C10_unhandled_kind_is_valid. reflexivity. Defined.

Lemma C7_scenario_E_witness :
  ValidMsg string lit_Compile lit_MatchString msg_account ∅
  = (Return (Some (ValidFail f_age "IntGt" (VInt64 0) (VInt64 0))), ∅).
Proof.
  apply (proj2 (C7_message_field_recurses string lit_Compile lit_MatchString
                  f_owner msg_owner eq_refl)
           [] [] ∅ ∅ _ ∅ eq_refl eq_refl eq_refl).
  - constructor.
  - reflexivity.
Defined.

Lemma C4_scenario_C_witness :
  validRepeated string lit_Compile lit_MatchString f_tags (VList []) (Some rule_tags) ∅
  = (Return (Some (ValidFail f_tags "RepeatedCountMin" (VInt64 1) (VInt64 0))), ∅).
Proof.
  destruct (C4_repeated_count_then_elements string lit_Compile lit_MatchString
              f_tags [] rule_tags ∅) as [H _].
  apply (H 1); reflexivity.
Defined.

Lemma C5_key_violation_witness :
  validMap string lit_Compile lit_MatchString f_scores
    (VMap [(VInt32 5, VString "x"); (VInt32 (-1), VString "y")])
    (getRule f_scores) ∅
  = (Return (Some (ValidFail (singular "key" TYPE_INT32 None) "IntGt"
                     (VInt64 0) (VInt64 (-1)))), ∅).
Proof.
  destruct (C5_map_rule_on_keys_only string lit_Compile lit_MatchString
              f_scores (singular "key" TYPE_INT32 None)
              (singular "value" TYPE_STRING None)
              [(VInt32 5, VString "x"); (VInt32 (-1), VString "y")]
              (getRule f_scores) ∅ eq_refl eq_refl) as (_ & _ & H & _).
  apply (H [(VInt32 5, VString "x")] (VInt32 (-1)) (VString "y") [] ∅ _ ∅ eq_refl).
  - econstructor; [reflexivity|constructor].
  - reflexivity.
Defined.

Lemma C8_compile_failure_witness :
  validField string lit_Compile lit_MatchString f_name (VString "Ada") (Some rule_name) ∅
  = validField string lit_Compile lit_MatchString f_name (VString "Ada")
      (Some (without_regex rule_name)) ∅.
Proof.
  apply (C8_regex_compile_failure string lit_Compile lit_MatchString
           f_name "Ada" rule_name "(" ∅ eq_refl eq_refl eq_refl).
  apply cache_ok_empty.
Defined.

Lemma C1_recovered_witness :
  ValidMsg string lit_Compile lit_MatchString msg_mismatch ∅ = (Return None, ∅).
Proof.
  apply (proj1 (proj2 (C1_panic_recovered_per_message string lit_Compile lit_MatchString))
           [] (f_count, Some (VString "oops")) [(f_age, Some (VInt32 0))] ∅ ∅ ∅).
  - constructor.
  - reflexivity.
Defined.

(** The later field [age] violates int-gt on its own and the earlier
    field [count] holds a string under a declared int32, yet [ValidMsg]
    returns nil, not the violation of [age]. *)
Lemma C1_counterexample :
  shape_ok (GetType f_count) (VString "oops") = false /\
  validField string lit_Compile lit_MatchString f_age (VInt32 0) (getRule f_age) ∅
  = (Return (Some (ValidFail f_age "IntGt" (VInt64 0) (VInt64 0))), ∅) /\
  ValidMsg string lit_Compile lit_MatchString msg_mismatch ∅ = (Return None, ∅) /\
  fst (ValidMsg string lit_Compile lit_MatchString msg_mismatch ∅)
  <> Return (Some (ValidFail f_age "IntGt" (VInt64 0) (VInt64 0))).
Proof.
  split; [reflexivity|]. split; [reflexivity|]. split; [reflexivity|].
  discriminate.
Qed.

(** One map, two iteration orders, two different errors. *)
Lemma C3_counterexample :
  scores_ab ≡ₚ scores_ba /\
  ValidMsg string lit_Compile lit_MatchString (msg_scores scores_ab) ∅
  = (Return (Some (ValidFail (singular "key" TYPE_INT32 None) "IntGt"
                     (VInt64 0) (VInt64 (-1)))), ∅) /\
  ValidMsg string lit_Compile lit_MatchString (msg_scores scores_ba) ∅
  = (Return (Some (ValidFail (singular "key" TYPE_INT32 None) "IntGt"
                     (VInt64 0) (VInt64 (-2)))), ∅) /\
  ValidMsg string lit_Compile lit_MatchString (msg_scores scores_ab) ∅
  <> ValidMsg string lit_Compile lit_MatchString (msg_scores scores_ba) ∅.
Proof.
  split; [apply perm_swap|]. split; [reflexivity|]. split; [reflexivity|].
  discriminate.
Qed.

Lemma C3_map_order_witness :
  (exists e, fst (validMap string lit_Compile lit_MatchString f_scores
                    (VMap scores_ab) (getRule f_scores) ∅) = Return (Some e)) <->
  (exists e', fst (validMap string lit_Compile lit_MatchString f_scores
                     (VMap scores_ba) (getRule f_scores) ∅) = Return (Some e')).
Proof.
  apply (proj2 (C3_deterministic_up_to_map_order string lit_Compile lit_MatchString)
           f_scores (singular "key" TYPE_INT32 None)
           (singular "value" TYPE_STRING None) scores_ab scores_ba
           (getRule f_scores) ∅ ∅ eq_refl eq_refl
           (cache_ok_empty _ _) (cache_ok_empty _ _)).
  - apply perm_swap.
  - intros entry Hin. unfold scores_ab in Hin.
    apply elem_of_cons in Hin as [->|Hin]; [discriminate|].
    apply elem_of_cons in Hin as [->|Hin]; [discriminate|].
    by apply not_elem_of_nil in Hin.
Defined.

(** A NaN under the rule float-gt = 0 is rejected, while NaN + 0 <= 0
    does not hold. *)
Lemma C6_counterexample :
  validField string lit_Compile lit_MatchString f_ratio (VFloat64 nan) (Some rule_ratio) ∅
  = (Return (Some (ValidFail f_ratio "FloatGt" (VFloat64 0) (VFloat64 nan))), ∅) /\
  ~ float_fails nan rule_ratio.
Proof.
  split; [reflexivity|].
  intros [(t & [= <-] & H)|[(t & [=] & _)|[(t & [=] & _)|(t & [=] & _)]]].
  vm_compute in H. discriminate.
Qed.

(** Scenario D, rejected value. *)
Lemma C6_scenario_D_witness :
  (exists e, validField string lit_Compile lit_MatchString f_score
               (VFloat64 0.2) (Some rule_score) ∅ = (Return (Some e), ∅)) <->
  float_fails 0.2 rule_score.
Proof.
  destruct (C6_float_bounds string lit_Compile lit_MatchString
              f_score (VFloat64 0.2) 0.2%float rule_score ∅
              (or_introl (conj eq_refl eq_refl))) as [H1 H2].
  rewrite H1. apply H2.
  repeat split; try reflexivity; intros t [= <-]; reflexivity.
Defined.

(** The error on a color of number 7 carries false, not 7. *)
Lemma C9_counterexample :
  ValidMsg string lit_Compile lit_MatchString msg_color ∅
  = (Return (Some (ValidFail f_color "IsInEnum" (VBool true) (VBool false))), ∅) /\
  fieldValue (ValidFail f_color "IsInEnum" (VBool true) (VBool false)) <> VInt32 7.
Proof. split; [reflexivity|discriminate]. Qed.

Lemma C9_reported_witness :
  exists f value rule,
    checked_in msg_color f value (Some rule) /\
    Violated string lit_Compile lit_MatchString f value rule
      (ValidFail f_color "IsInEnum" (VBool true) (VBool false)).
Proof.
  apply (proj1 (proj2 (C9_error_reports_constraint string lit_Compile lit_MatchString))
           msg_color ∅ _ ∅ (cache_ok_empty _ _)).
  reflexivity.
Defined.

(** ** The scenarios of the specification *)

Example scenario_A_valid :
  validField string lit_Compile lit_MatchString f_age (VInt32 30) (getRule f_age) ∅
  = (Return None, ∅).
Proof. reflexivity. Qed.

Example scenario_A_zero :
  validField string lit_Compile lit_MatchString f_age (VInt32 0) (getRule f_age) ∅
  = (Return (Some (ValidFail f_age "IntGt" (VInt64 0) (VInt64 0))), ∅).
Proof. reflexivity. Qed.

Example scenario_B_empty :
  validField string lit_Compile lit_MatchString f_person (VString "") (getRule f_person) ∅
  = (Return (Some (ValidFail f_person "StringNotEmpty" (VBool true) (VString ""))), ∅).
Proof. reflexivity. Qed.

Example scenario_B_valid :
  validField string lit_Compile lit_MatchString f_person (VString "Ada") (getRule f_person) ∅
  = (Return None, ∅).
Proof. reflexivity. Qed.

Example scenario_C_four :
  validRepeated string lit_Compile lit_MatchString f_tags
    (VList [VString "a"; VString "b"; VString "c"; VString "d"]) (getRule f_tags) ∅
  = (Return (Some (ValidFail f_tags "RepeatedCountMax" (VInt64 3) (VInt64 4))), ∅).
Proof. reflexivity. Qed.

Example scenario_C_two :
  validRepeated string lit_Compile lit_MatchString f_tags
    (VList [VString "a"; VString "b"]) (getRule f_tags) ∅
  = (Return None, ∅).
Proof. reflexivity. Qed.

Example scenario_D_valid :
  validField string lit_Compile lit_MatchString f_score (VFloat64 0.27) (getRule f_score) ∅
  = (Return None, ∅).
Proof. reflexivity. Qed.

Example scenario_D_violation :
  validField string lit_Compile lit_MatchString f_score (VFloat64 0.2) (getRule f_score) ∅
  = (Return (Some (ValidFail f_score "FloatGte" (VFloat64 0.3) (VFloat64 0.2))), ∅).
Proof. reflexivity. Qed.

(** A pattern that compiles is stored by the first run and found by
    the second, which returns the same. *)
Example pattern_cached :
  validField string lit_Compile lit_MatchString f_code (VString "cabd") (getRule f_code) ∅
  = (Return None, {["ab" := "ab"]}) /\
  validField string lit_Compile lit_MatchString f_code (VString "cabd") (getRule f_code)
    {["ab" := "ab"]}
  = (Return None, {["ab" := "ab"]}) /\
  fst (validField string lit_Compile lit_MatchString f_code (VString "xyz") (getRule f_code)
         {["ab" := "ab"]})
  = Return (Some (ValidFail f_code "Regex" (VString "ab") (VString "xyz"))).
Proof. repeat split; vm_compute; reflexivity. Qed.

(** ** The further properties on the examples *)

Lemma X1_Get_memoizes_witness :
  ({["ab" := "ab"]} : gmap string string) !! "ab" = Some "ab" /\
  Get string lit_Compile "ab" {["ab" := "ab"]} = (Some "ab", {["ab" := "ab"]}) /\
  (forall other, other <> "ab" ->
     ({["ab" := "ab"]} : gmap string string) !! other = (∅ : gmap string string) !! other) /\
  (∅ : gmap string string) ⊆ {["ab" := "ab"]}.
Proof.
  apply (proj1 (X1_Get_memoizes string lit_Compile "ab" ∅) "ab" {["ab" := "ab"]}).
  reflexivity.
Defined.

Lemma X2_Get_agrees_witness :
  fst (Get string lit_Compile "(" ∅) = lit_Compile "(" /\
  cache_ok string lit_Compile (snd (Get string lit_Compile "(" ∅)) /\
  fst (Get string lit_Compile "(" (snd (Get string lit_Compile "(" ∅)))
  = fst (Get string lit_Compile "(" ∅).
Proof.
  apply X2_Get_agrees_with_Compile. apply cache_ok_empty.
Defined.

Lemma X3_reset_witness :
  fst (ValidMsg string lit_Compile lit_MatchString
         (DynMessage [(f_code, Some (VString "xyz"))]) (reset string {["ab" := "ab"]}))
  = fst (ValidMsg string lit_Compile lit_MatchString
           (DynMessage [(f_code, Some (VString "xyz"))]) {["ab" := "ab"]}).
Proof.
  apply X3_reset_keeps_results.
  intros expr exp H. apply lookup_singleton_Some in H as [<- <-]. reflexivity.
Defined.

Lemma X4_keeps_cache_witness :
  snd (ValidMsg string lit_Compile lit_MatchString
         (DynMessage [(f_code, Some (VString "cabd"))]) {["zz" := "zz"]}) !! "zz"
  = Some "zz".
Proof. apply X4_ValidMsg_keeps_cache. reflexivity. Defined.

Lemma X5_no_rule_witness :
  fst (ValidMsg string lit_Compile lit_MatchString msg_plain ∅) = Return None.
Proof.
  apply X5_no_rule_no_violation. intros f value rule H.
  inversion H as [known f0 v0 f' v' rule' Hin Hw]; subst.
  apply elem_of_cons in Hin as [Heq|Hin].
  - injection Heq as -> ->. inversion Hw; subst. reflexivity.
  - apply list_elem_of_singleton in Hin. injection Hin as -> ->.
    inversion Hw as [| | | |? ? ? ? ? ? Hc]; subst; [reflexivity|].
    inversion Hc as [known f0 v0 f' v' rule' Hin Hw']; subst.
    apply list_elem_of_singleton in Hin. injection Hin as -> ->.
    inversion Hw'; subst. reflexivity.
Defined.

Lemma X6_skipped_witness :
  ValidMsg string lit_Compile lit_MatchString
    (DynMessage ([] ++ (f_ext, Some (VInt32 (-1))) :: [(f_age, Some (VInt32 30))])) ∅
  = ValidMsg string lit_Compile lit_MatchString
      (DynMessage ([] ++ [(f_age, Some (VInt32 30))])) ∅.
Proof. apply X6_skipped_field_is_ignored. left. reflexivity. Defined.

Lemma X7_nested_panic_witness :
  ValidMsg string lit_Compile lit_MatchString msg_broken_owner ∅
  = ValidMsg string lit_Compile lit_MatchString
      (DynMessage [(f_age, Some (VInt32 0))]) ∅.
Proof.
  apply (X7_nested_panic_stays_nested string lit_Compile lit_MatchString
           f_owner (DynMessage [(f_count, Some (VString "oops"))])
           [(f_age, Some (VInt32 0))] ∅ ∅);
    reflexivity.
Defined.

Lemma X8_string_witness :
  (exists e, fst (validField string lit_Compile lit_MatchString f_person
                    (VString "") (Some rule_person) ∅) = Return (Some e)) <->
  string_fails string lit_Compile lit_MatchString "" rule_person.
Proof.
  apply X8_string_fails_iff; [reflexivity|apply cache_ok_empty].
Defined.

Lemma X9_length_eq_witness :
  validField string lit_Compile lit_MatchString f_zip (VString "12345") (Some rule_zip) ∅
  = (Return None, ∅) <->
  Z.of_nat (String.length "12345") = 5.
Proof. apply X9_length_eq_exact; reflexivity. Defined.

Lemma X10_bytes_witness :
  (exists e, validField string lit_Compile lit_MatchString f_blob
               (VBytes []) (Some rule_blob) ∅ = (Return (Some e), ∅)) <->
  bytes_fails [] rule_blob.
Proof. apply X10_bytes_fails_iff. reflexivity. Defined.

Lemma X11_enum_witness :
  (exists e, validField string lit_Compile lit_MatchString f_color
               (VInt32 7) (Some rule_enum) ∅ = (Return (Some e), ∅)) <->
  IsInEnum rule_enum = Some true /\ 7 ∉ GetEnumValues f_color.
Proof. apply X11_enum_fails_iff. reflexivity. Defined.

Lemma X12_int_in_range_witness :
  (exists e, validField string lit_Compile lit_MatchString f_age (VInt32 0)
               (Some (rule_int (Some 0) (Some 150))) ∅ = (Return (Some e), ∅)) <->
  int_fails 0 (rule_int (Some 0) (Some 150)).
Proof.
  apply validField_int_fails_iff.
  - split; [reflexivity|]. unfold in_int32. lia.
  - unfold in_int64. lia.
Defined.

Lemma X13_unsatisfiable_witness :
  exists e, validField string lit_Compile lit_MatchString f_void (VInt64 7)
              (Some rule_void) ∅ = (Return (Some e), ∅).
Proof.
  apply (X13_int_bounds_unsatisfiable string lit_Compile lit_MatchString
           f_void (VInt64 7) 7 rule_void 10 5 ∅).
  - split; [reflexivity|]. unfold in_int64. lia.
  - unfold in_int64. lia.
  - reflexivity.
  - reflexivity.
  - lia.
Defined.

Lemma X15_reported_first_witness :
  (validKey (ValidFail f_void "IntGt" (VInt64 10) (VInt64 7)) = "IntGt" <->
   exists gt, IntGt rule_void = Some gt /\ 7 <= gt) /\
  (validKey (ValidFail f_void "IntGt" (VInt64 10) (VInt64 7)) = "IntGt" \/
   validKey (ValidFail f_void "IntGt" (VInt64 10) (VInt64 7)) = "IntLt").
Proof.
  apply (X15_int_gt_reported_first string lit_Compile lit_MatchString
           f_void (VInt64 7) 7 rule_void ∅ _ ∅).
  - split; [reflexivity|]. unfold in_int64. lia.
  - unfold in_int64. lia.
  - reflexivity.
Defined.

Lemma X17_first_violation_witness :
  ValidMsg string lit_Compile lit_MatchString
    (DynMessage ([(f_count, Some (VInt32 5))] ++ (f_age, Some (VInt32 0))
                   :: [(f_count, Some (VString "oops"))])) ∅
  = (Return (Some (ValidFail f_age "IntGt" (VInt64 0) (VInt64 0))), ∅).
Proof.
  apply X17_first_violation_in_field_order.
  exists [(f_count, Some (VInt32 5))], (f_age, Some (VInt32 0)),
         [(f_count, Some (VString "oops"))], ∅.
  split; [reflexivity|]. split; [|reflexivity].
  econstructor; [reflexivity|constructor].
Defined.

Lemma X18_valid_witness :
  all_pass string (validKnown string lit_Compile lit_MatchString) [(f_age, Some (VInt32 30))] ∅ ∅ \/
  exists pre slot post r1,
    [(f_age, Some (VInt32 30))] = pre ++ slot :: post /\
    all_pass string (validKnown string lit_Compile lit_MatchString) pre ∅ r1 /\
    validKnown string lit_Compile lit_MatchString slot r1 = (Panic, ∅).
Proof.
  apply (proj1 (X18_valid_iff_pass_or_panic string lit_Compile lit_MatchString
                  [(f_age, Some (VInt32 30))] ∅ ∅)).
  reflexivity.
Defined.
